(** * PodcastApp (script.js): a shallow embedding and its properties

    The embedding follows [src/script.js]: the [Podcast] class, the three
    pipeline functions [filterByGenre], [applySearch] and [sortList], the
    grid renderer and the modal.

    Modelling conventions.
    - A JavaScript number is a [Number]: [NaN] or an integer [Num z].  The
      numbers the program computes with are time values in milliseconds,
      day and week counts and popularity scores; all are integers in the
      dataset and integer arithmetic on them is exact.
    - A JavaScript string is a [string], a sequence of code units below 256.
    - Arrays are objects: an array variable holds a reference [ref] into a
      [store], so that copying ([slice], [filter]) and in-place update
      ([sort]) are distinguished.
    - The host functions the program calls but does not define
      ([Date.parse], [Date.now], [toLocaleDateString]) are parameters. *)

From Stdlib Require Import ZArith String Ascii List Lia DecimalString.
From stdpp Require Import base gmap list strings sorting.

(* ================================================================== *)
(** * JavaScript numbers *)

Inductive Number : Type :=
  | NaN
  | Num (z : Z).

#[global] Instance Number_eq_dec : EqDecision Number.
Proof. solve_decision. Defined.

(** [x - y]: NaN when either operand is. *)
Definition Number_sub (x y : Number) : Number :=
  match x, y with
  | Num a, Num b => Num (a - b)
  | _, _ => NaN
  end.

(** [Math.floor(x / d)] for a positive integer constant [d]: the floor of
    the quotient of two integers is their integer quotient. *)
Definition Math_floor_div (x : Number) (d : Z) : Number :=
  match x with
  | Num a => Num (a / d)
  | NaN => NaN
  end.

(** [x <= y], [x < y], [x > y], [x === y] on numbers: every comparison
    with NaN is false. *)
Definition Number_le (x y : Number) : bool :=
  match x, y with Num a, Num b => (a <=? b)%Z | _, _ => false end.

Definition Number_lt (x y : Number) : bool :=
  match x, y with Num a, Num b => (a <? b)%Z | _, _ => false end.

Definition Number_gt (x y : Number) : bool := Number_lt y x.

Definition Number_strict_eq (x y : Number) : bool :=
  match x, y with Num a, Num b => (a =? b)%Z | _, _ => false end.

(** The string a template literal substitutes for a number. *)
Definition Number_toString (x : Number) : string :=
  match x with
  | NaN => "NaN"
  | Num z => NilZero.string_of_int (Z.to_int z)
  end.

(* ================================================================== *)
(** * JavaScript strings *)

Definition code (c : ascii) : nat := nat_of_ascii c.

(** White space removed by [trim]: TAB, LF, VT, FF, CR, SP and NBSP. *)
Definition is_white_space (c : ascii) : bool :=
  let n := code c in
  ((9 <=? n) && (n <=? 13)) || (n =? 32) || (n =? 160).

(** Simple lower-case mapping of one code unit: A-Z and the upper-case
    letters of the Latin-1 block (all of 192..222 but the sign 215). *)
Definition lower_char (c : ascii) : ascii :=
  let n := code c in
  if ((65 <=? n) && (n <=? 90)) ||
     ((192 <=? n) && (n <=? 222) && negb (n =? 215))
  then ascii_of_nat (n + 32)
  else c.

Fixpoint String_toLowerCase (s : string) : string :=
  match s with
  | EmptyString => EmptyString
  | String c s' => String (lower_char c) (String_toLowerCase s')
  end.

Fixpoint String_trimStart (s : string) : string :=
  match s with
  | EmptyString => EmptyString
  | String c s' => if is_white_space c then String_trimStart s' else s
  end.

Fixpoint String_trimEnd (s : string) : string :=
  match s with
  | EmptyString => EmptyString
  | String c s' =>
      match String_trimEnd s' with
      | EmptyString => if is_white_space c then EmptyString
                       else String c EmptyString
      | r => String c r
      end
  end.

Definition String_trim (s : string) : string :=
  String_trimEnd (String_trimStart s).

(** Every character of the string is white space. *)
Fixpoint all_white_space (s : string) : bool :=
  match s with
  | EmptyString => true
  | String c s' => is_white_space c && all_white_space s'
  end.

(** [s.startsWith(t)] and [s.includes(t)]. *)
Fixpoint String_startsWith (s t : string) {struct t} : bool :=
  match t, s with
  | EmptyString, _ => true
  | String _ _, EmptyString => false
  | String c t', String d s' =>
      if Ascii.eqb c d then String_startsWith s' t' else false
  end.

Fixpoint String_includes (s t : string) : bool :=
  String_startsWith s t ||
  match s with
  | EmptyString => false
  | String _ s' => String_includes s' t
  end.

(** Truthiness of a string: [!s] holds exactly for the empty string. *)
Definition String_falsy (s : string) : bool :=
  match s with EmptyString => true | _ => false end.

(** [a || b] on strings. *)
Definition String_or (a b : string) : string :=
  if String_falsy a then b else a.

(** [xs.join(sep)] and [xs.includes(x)] for an array of strings held by
    value inside a record. *)
Fixpoint Array_join (sep : string) (xs : list string) : string :=
  match xs with
  | [] => EmptyString
  | [x] => x
  | x :: xs' => x +:+ sep +:+ Array_join sep xs'
  end.

Fixpoint Array_includes (xs : list string) (x : string) : bool :=
  match xs with
  | [] => false
  | y :: xs' => String.eqb y x || Array_includes xs' x
  end.

(** Number of occurrences of a character in a string. *)
Fixpoint count_char (c : ascii) (s : string) : nat :=
  match s with
  | EmptyString => 0
  | String d s' => (if Ascii.eqb c d then 1 else 0) + count_char c s'
  end.

(** [s] occurs in [t] as a contiguous substring. *)
Definition substring_of (s t : string) : Prop :=
  ∃ pre post : string, t = pre +:+ s +:+ post.

(* ================================================================== *)
(** * Dates *)

(** A [Date] object is its time value: milliseconds since the epoch, or
    NaN for an Invalid Date. *)
Record Date : Type := mkDate { getTime : Number }.

#[global] Instance Date_eq_dec : EqDecision Date.
Proof. solve_decision. Defined.

Definition msPerDay : Z := 86400000.

(** [TimeClip]: a time value further than 8.64e15 ms from the epoch is
    NaN. *)
Definition TimeClip (t : Number) : Number :=
  match t with
  | Num z => if (Z.abs z <=? 8640000000000000)%Z then Num z else NaN
  | NaN => NaN
  end.

(** The value handed to [new Date(...)]: a missing field ([undefined]),
    [null], a number, a string or a Date. *)
Inductive DateArg : Type :=
  | ArgUndefined
  | ArgNull
  | ArgNumber (n : Number)
  | ArgString (s : string)
  | ArgDate (d : Date).

(** [new Date(v)].  [Date_parse] is the host's [Date.parse]: the time
    value of a string it recognises, NaN otherwise. *)
Definition Date_new (Date_parse : string → Number) (v : DateArg) : Date :=
  match v with
  | ArgUndefined => mkDate NaN
  | ArgNull => mkDate (Num 0)
  | ArgNumber n => mkDate (TimeClip n)
  | ArgString s => mkDate (TimeClip (Date_parse s))
  | ArgDate d => mkDate (getTime d)
  end.

(** [new Date(d)] for a Date [d], as [sortList] calls it. *)
Definition Date_copy (d : Date) : Date := mkDate (getTime d).

Definition valid_date (d : Date) : Prop := ∃ t, getTime d = Num t.

(** A host [Date.parse] restricted to the date-only form YYYY-MM-DD that
    the dataset uses, read as midnight UTC; every other string is
    unrecognised.  It instantiates the [Date_parse] parameter in examples. *)
Definition digit_value (c : ascii) : option Z :=
  let n := code c in
  if (48 <=? n) && (n <=? 57) then Some (Z.of_nat (n - 48)) else None.

Definition is_leap_year (y : Z) : bool :=
  ((y mod 4 =? 0) && negb (y mod 100 =? 0) || (y mod 400 =? 0))%Z.

Definition days_in_month (y m : Z) : Z :=
  if (m =? 2)%Z then (if is_leap_year y then 29 else 28)
  else if ((m =? 4) || (m =? 6) || (m =? 9) || (m =? 11))%Z then 30
  else 31.

(** Day number of a civil date, counted from 1970-01-01. *)
Definition days_from_civil (y m d : Z) : Z :=
  let y' := (if m <=? 2 then y - 1 else y)%Z in
  let era := (y' / 400)%Z in
  let yoe := (y' - era * 400)%Z in
  let mp := (if m <=? 2 then m + 9 else m - 3)%Z in
  let doy := ((153 * mp + 2) / 5 + d - 1)%Z in
  let doe := (yoe * 365 + yoe / 4 - yoe / 100 + doy)%Z in
  (era * 146097 + doe - 719468)%Z.

Definition iso_date_parse (s : string) : Number :=
  match s with
  | String y1 (String y2 (String y3 (String y4 (String h1
      (String m1 (String m2 (String h2 (String d1 (String d2
        EmptyString))))))))) =>
      match digit_value y1, digit_value y2, digit_value y3, digit_value y4,
            digit_value m1, digit_value m2, digit_value d1, digit_value d2 with
      | Some a, Some b, Some c, Some e, Some f, Some g, Some i, Some j =>
          let y := (a * 1000 + b * 100 + c * 10 + e)%Z in
          let m := (f * 10 + g)%Z in
          let d := (i * 10 + j)%Z in
          if Ascii.eqb h1 "-" && Ascii.eqb h2 "-" &&
             (1 <=? m)%Z && (m <=? 12)%Z &&
             (1 <=? d)%Z && (d <=? days_in_month y m)%Z
          then Num (days_from_civil y m d * msPerDay)
          else NaN
      | _, _, _, _, _, _, _, _ => NaN
      end
  | _ => NaN
  end.

(* ================================================================== *)
(** * The Podcast model *)

Module Season.

Record t : Type := mk {
  title : string;
  description : option string;   (* optional in the source *)
  episodes : Z
}.

End Season.

#[global] Instance Season_eq_dec : EqDecision Season.t.
Proof. solve_decision. Defined.

(** The raw object [o] given to the constructor.  [seasons] may be
    missing or hold something that is not an array; [updated] is whatever
    the caller supplied. *)
Module Raw.

Inductive SeasonsField : Type :=
  | Missing
  | Null
  | AString (s : string)
  | ANumber (n : Number)
  | AnArray (xs : list Season.t).

Record t : Type := mk {
  id : Z;
  title : string;
  cover : string;
  description : string;
  genres : list string;
  seasons : SeasonsField;
  updated : DateArg;
  popularity : Z
}.

End Raw.

Module Podcast.

Record t : Type := mk {
  id : Z;
  title : string;
  cover : string;
  description : string;
  genres : list string;
  seasons : list Season.t;
  updated : Date;
  popularity : Z
}.

(** [constructor(o)]: copy the fields, replace [updated] by
    [new Date(o.updated)], and default [seasons] to the empty array when
    it is not an array. *)
Definition new (Date_parse : string → Number) (o : Raw.t) : t :=
  {| id := Raw.id o;
     title := Raw.title o;
     cover := Raw.cover o;
     description := Raw.description o;
     genres := Raw.genres o;
     seasons := match Raw.seasons o with
                | Raw.AnArray xs => xs
                | _ => []
                end;
     updated := Date_new Date_parse (Raw.updated o);
     popularity := Raw.popularity o |}.

Definition getSeasonCount (p : t) : Z := Z.of_nat (length (seasons p)).

(** [now] is the value of [Date.now()]. *)
Definition getLastUpdatedHuman (now : Z) (p : t) : string :=
  let days :=
    Math_floor_div (Number_sub (Num now) (getTime (updated p))) msPerDay in
  if Number_le days (Num 0) then "Updated today"
  else if Number_strict_eq days (Num 1) then "Updated yesterday"
  else if Number_lt days (Num 7)
  then "Updated " +:+ Number_toString days +:+ " days ago"
  else
    let weeks := Math_floor_div days 7 in
    "Updated " +:+ Number_toString weeks +:+ " week" +:+
      (if Number_gt weeks (Num 1) then "s" else EmptyString) +:+ " ago".

(** [toLocaleDateString] is the host's formatter. *)
Definition getFullDate (toLocaleDateString : Date → string) (p : t) : string :=
  toLocaleDateString (updated p).

End Podcast.

#[global] Instance Podcast_eq_dec : EqDecision Podcast.t.
Proof. solve_decision. Defined.

(** The whole-day age [Math.floor((now - updated) / 86400000)]. *)
Definition days_since (now : Z) (p : Podcast.t) : Number :=
  Math_floor_div (Number_sub (Num now) (getTime (Podcast.updated p))) msPerDay.

(* ================================================================== *)
(** * Arrays of podcasts as objects in a store *)

Abbreviation ref := positive (only parsing).
Abbreviation store := (gmap positive (list Podcast.t)) (only parsing).

(** A computation that reads and updates the store. *)
Definition St (A : Type) : Type := store → A * store.

#[global] Instance St_ret : MRet St := λ A (x : A) h, (x, h).
#[global] Instance St_bind : MBind St :=
  λ A B (k : A → St B) (m : St A) h, let '(x, h') := m h in k x h'.

(** The elements of the array a reference points to.  A reference the
    program holds always points to an array; the empty list stands for
    the case that cannot arise. *)
Definition elements_at (h : store) (a : ref) : list Podcast.t :=
  default [] (h !! a).

(** The elements of the array a computation returns. *)
Definition result_elements (m : St ref) (h : store) : list Podcast.t :=
  let '(r, h') := m h in elements_at h' r.

(** Reading the elements of an array. *)
Definition Array_elements (a : ref) : St (list Podcast.t) :=
  λ h, (elements_at h a, h).

(** Allocation of a new array object. *)
Definition Array_alloc (xs : list Podcast.t) : St ref :=
  λ h, let r := fresh (dom h) in (r, <[r := xs]> h).

(** [a.slice()]: a new array with the same elements. *)
Definition Array_slice (a : ref) : St ref :=
  λ h, Array_alloc (elements_at h a) h.

(** [a.filter(f)]: a new array with the elements [f] accepts, in order. *)
Definition Array_filter (f : Podcast.t → bool) (a : ref) : St ref :=
  λ h, Array_alloc (List.filter f (elements_at h a)) h.

(** [SortCompare]: the comparator's result, with NaN read as +0. *)
Definition SortCompare {A} (comparefn : A → A → Number) (x y : A) : Z :=
  match comparefn x y with
  | NaN => 0
  | Num v => v
  end.

(** The order [a.sort(comparefn)] leaves the elements in.  ECMAScript
    requires the sort to be stable and leaves the algorithm open; the
    model is the stable insertion sort: an element moves behind exactly
    those elements the comparator orders strictly before it. *)
Fixpoint sort_insert {A} (comparefn : A → A → Number) (x : A) (l : list A)
  : list A :=
  match l with
  | [] => [x]
  | y :: l' =>
      if (0 <? SortCompare comparefn x y)%Z
      then y :: sort_insert comparefn x l'
      else x :: l
  end.

Definition sort_elements {A} (comparefn : A → A → Number) (l : list A)
  : list A :=
  foldr (sort_insert comparefn) [] l.

(** [a.sort(comparefn)]: reorders [a] in place and returns [a] itself. *)
Definition Array_sort (comparefn : Podcast.t → Podcast.t → Number) (a : ref)
  : St ref :=
  λ h, (a, <[a := sort_elements comparefn (elements_at h a)]> h).

(* ================================================================== *)
(** * Filtering, sorting, search *)

Definition filterByGenre (lst : ref) (genre : string) : St ref :=
  if String_falsy genre || String.eqb genre "All Genres"
  then Array_slice lst
  else Array_filter (λ p, Array_includes (Podcast.genres p) genre) lst.

(** The two comparators of [sortList]. *)
Definition by_popularity (a b : Podcast.t) : Number :=
  Number_sub (Num (Podcast.popularity b)) (Num (Podcast.popularity a)).

Definition by_updated (a b : Podcast.t) : Number :=
  Number_sub (getTime (Date_copy (Podcast.updated b)))
             (getTime (Date_copy (Podcast.updated a))).

Definition sortList (lst : ref) (type : string) : St ref :=
  arr ← Array_slice lst;
  if String.eqb type "Most Popular" then Array_sort by_popularity arr
  else if String.eqb type "Newest" then Array_sort by_updated arr
  else (* Recently Updated (default) *) Array_sort by_updated arr.

Definition search_matches (query : string) (p : Podcast.t) : bool :=
  String_includes (String_toLowerCase (Podcast.title p)) query ||
  String_includes
    (String_toLowerCase (Array_join " " (Podcast.genres p))) query.

Definition applySearch (lst : ref) (q : string) : St ref :=
  let query := String_toLowerCase (String_trim (String_or q EmptyString)) in
  if String_falsy query then Array_slice lst
  else Array_filter (search_matches query) lst.

(** The records of [l] that satisfy [P], in the order of [l]: each
    element of [l] is kept exactly when it satisfies [P]. *)
Inductive kept_by {A} (P : A → Prop) : list A → list A → Prop :=
  | kept_nil : kept_by P [] []
  | kept_keep x l out : P x → kept_by P l out → kept_by P (x :: l) (x :: out)
  | kept_drop x l out : ¬ P x → kept_by P l out → kept_by P (x :: l) out.

(* ================================================================== *)
(** * Sample dataset (8 shows) *)

(** The contents of the array [SAMPLE_PODCASTS].  [daysAgoISO n] is the
    ISO date string of the day [n] days before the page was loaded. *)
Definition SAMPLE_PODCASTS (Date_parse : string → Number)
  (daysAgoISO : Z → string) : list Podcast.t := [
  Podcast.new Date_parse
    {| Raw.id := 1;
       Raw.title := "Tech Talks Daily";
       Raw.cover := "https://picsum.photos/seed/tech1/600/400";
       Raw.description :=
         "Deep dives into technology trends, AI, and digital transformation with expert interviews and case studies.";
       Raw.genres := ["Technology"; "Business"];
       Raw.seasons := Raw.AnArray [
         Season.mk "Season 1: Getting Started" (Some "Introduction to the fundamentals") 12;
         Season.mk "Season 2: Advanced Topics" (Some "Deep dives into complex subjects") 15;
         Season.mk "Season 3: Industry Insights" (Some "Expert perspectives and case studies") 18;
         Season.mk "Season 4: Future Trends" (Some "What's coming next in tech") 20 ];
       Raw.updated := ArgString "2025-01-15";
       Raw.popularity := 95 |};
  Podcast.new Date_parse
    {| Raw.id := 2;
       Raw.title := "Crime Junkie";
       Raw.cover := "https://picsum.photos/seed/crime2/600/400";
       Raw.description :=
         "True crime stories, investigations, and mysteries that keep you on the edge.";
       Raw.genres := ["True Crime"; "Mystery"];
       Raw.seasons := Raw.AnArray [
         Season.mk "Season 1: Dark Stories" (Some "Chilling cases that shocked the world") 20;
         Season.mk "Season 2: Cold Cases" (Some "Unsolved crimes revisited") 18 ];
       Raw.updated := ArgString (daysAgoISO 7%Z);
       Raw.popularity := 88 |};
  Podcast.new Date_parse
    {| Raw.id := 3;
       Raw.title := "Comedy Bang Bang";
       Raw.cover := "https://picsum.photos/seed/comedy3/600/400";
       Raw.description :=
         "Improvised comedy and interviews with a rotating cast of characters.";
       Raw.genres := ["Comedy"; "Entertainment"];
       Raw.seasons := Raw.AnArray [
         Season.mk "Season 1" (Some "Sketches and bits") 22 ];
       Raw.updated := ArgString (daysAgoISO 3%Z);
       Raw.popularity := 82 |};
  Podcast.new Date_parse
    {| Raw.id := 4;
       Raw.title := "How I Built This";
       Raw.cover := "https://picsum.photos/seed/biz4/600/400";
       Raw.description :=
         "Founders tell the stories behind the movements they built.";
       Raw.genres := ["Business"; "Entrepreneurship"];
       Raw.seasons := Raw.AnArray [
         Season.mk "Season 1" (Some "Origin stories") 18 ];
       Raw.updated := ArgString (daysAgoISO 5%Z);
       Raw.popularity := 91 |};
  Podcast.new Date_parse
    {| Raw.id := 5;
       Raw.title := "The Daily Meditation";
       Raw.cover := "https://picsum.photos/seed/med5/600/400";
       Raw.description :=
         "Mindfulness practices and talks for everyday calm.";
       Raw.genres := ["Health"; "Lifestyle"];
       Raw.seasons := Raw.AnArray [
         Season.mk "Season 1" (Some "Breathe and relax") 30 ];
       Raw.updated := ArgString (daysAgoISO 1%Z);
       Raw.popularity := 70 |};
  Podcast.new Date_parse
    {| Raw.id := 6;
       Raw.title := "Hardcore History";
       Raw.cover := "https://picsum.photos/seed/hist6/600/400";
       Raw.description :=
         "Long-form explorations of pivotal moments and people.";
       Raw.genres := ["History"; "Education"];
       Raw.seasons := Raw.AnArray [
         Season.mk "Season 1" (Some "Ancient wars") 10 ];
       Raw.updated := ArgString (daysAgoISO 4%Z);
       Raw.popularity := 99 |};
  Podcast.new Date_parse
    {| Raw.id := 7;
       Raw.title := "The Sports Desk";
       Raw.cover := "https://picsum.photos/seed/sports7/600/400";
       Raw.description :=
         "Analysis and interviews from across the sports world.";
       Raw.genres := ["Sports"; "News"];
       Raw.seasons := Raw.AnArray [
         Season.mk "Season 1" (Some "Weekly recaps") 24 ];
       Raw.updated := ArgString (daysAgoISO 6%Z);
       Raw.popularity := 76 |};
  Podcast.new Date_parse
    {| Raw.id := 8;
       Raw.title := "Curious Minds";
       Raw.cover := "https://picsum.photos/seed/sci8/600/400";
       Raw.description :=
         "Science explained through engaging stories and experiments.";
       Raw.genres := ["Science"; "Nature"];
       Raw.seasons := Raw.AnArray [
         Season.mk "Season 1" (Some "Everyday science") 16 ];
       Raw.updated := ArgString (daysAgoISO 8%Z);
       Raw.popularity := 85 |} ].

(* ================================================================== *)
(** * Rendering: HTML escaping and the modal template *)

Definition dq : string := String "034"%char EmptyString.
Definition nl : string := String "010"%char EmptyString.

(** The replacement [escapeHtml] makes for one character. *)
Definition escape_char (c : ascii) : string :=
  if Ascii.eqb c "&" then "&amp;"
  else if Ascii.eqb c "<" then "&lt;"
  else if Ascii.eqb c ">" then "&gt;"
  else if Ascii.eqb c "034" then "&quot;"
  else if Ascii.eqb c "'" then "&#39;"
  else String c EmptyString.

(** [escapeHtml(str)] for a string [str]; the source returns the empty
    string for any other type of value. *)
Fixpoint escapeHtml (str : string) : string :=
  match str with
  | EmptyString => EmptyString
  | String c s' => escape_char c +:+ escapeHtml s'
  end.

(** [xs.join("")]. *)
Definition join_empty (xs : list string) : string :=
  Array_join EmptyString xs.

(** The literal text of the template of [openModal], cut at its
    substitutions. *)
Definition modal_T0 : string :=
  nl +:+
  "    <h2 id=" +:+ dq +:+ "modal-title" +:+ dq +:+ " class=" +:+ dq +:+ "modal-title" +:+ dq +:+ ">".

Definition modal_T1 : string :=
  "</h2>" +:+ nl +:+
  "    <div class=" +:+ dq +:+ "modal-top" +:+ dq +:+ ">" +:+ nl +:+
  "      <div class=" +:+ dq +:+ "modal-cover" +:+ dq +:+ " style=" +:+ dq +:+ "background-image:url('".

Definition modal_T2 : string :=
  "')" +:+ dq +:+ "></div>" +:+ nl +:+
  "      <div>" +:+ nl +:+
  "        <div class=" +:+ dq +:+ "section-title" +:+ dq +:+ ">Description</div>" +:+ nl +:+
  "        <p class=" +:+ dq +:+ "description" +:+ dq +:+ ">".

Definition modal_T3 : string :=
  "</p>" +:+ nl +:+
  nl +:+
  "        <div class=" +:+ dq +:+ "section-title" +:+ dq +:+ ">Genres</div>" +:+ nl +:+
  "        <div class=" +:+ dq +:+ "modal-tags" +:+ dq +:+ ">" +:+ nl +:+
  "          ".

Definition modal_T4 : string :=
  nl +:+
  "        </div>" +:+ nl +:+
  nl +:+
  "        <div class=" +:+ dq +:+ "modal-updated" +:+ dq +:+ ">Last updated: ".

Definition modal_T5 : string :=
  "</div>" +:+ nl +:+
  "      </div>" +:+ nl +:+
  "    </div>" +:+ nl +:+
  nl +:+
  "    <div class=" +:+ dq +:+ "seasons" +:+ dq +:+ ">" +:+ nl +:+
  "      <h3>Seasons</h3>" +:+ nl +:+
  "      <ul class=" +:+ dq +:+ "season-list" +:+ dq +:+ ">" +:+ nl +:+
  "        ".

Definition modal_T6 : string :=
  nl +:+
  "      </ul>" +:+ nl +:+
  "    </div>" +:+ nl +:+
  "  ".

Definition season_S0 : string :=
  nl +:+
  "          <li class=" +:+ dq +:+ "season-row" +:+ dq +:+ ">" +:+ nl +:+
  "            <div class=" +:+ dq +:+ "season-meta" +:+ dq +:+ ">" +:+ nl +:+
  "              <div class=" +:+ dq +:+ "season-title" +:+ dq +:+ ">".

Definition season_S1 : string :=
  "</div>" +:+ nl +:+
  "              <div class=" +:+ dq +:+ "season-desc" +:+ dq +:+ ">".

Definition season_S2 : string :=
  "</div>" +:+ nl +:+
  "            </div>" +:+ nl +:+
  "            <span class=" +:+ dq +:+ "episodes-count" +:+ dq +:+ ">".

Definition season_S3 : string :=
  " episodes</span>" +:+ nl +:+
  "          </li>" +:+ nl +:+
  "        ".

Definition tag_G0 : string :=
  "<span class=" +:+ dq +:+ "tag" +:+ dq +:+ ">".

Definition tag_G1 : string :=
  "</span>".

(** The characters HTML reads as markup delimiters, all replaced by
    [escapeHtml]. *)
Definition markup_chars : list ascii :=
  ["<"; ">"; "034"; "'"]%char.

Definition genre_tag (g : string) : string :=
  tag_G0 +:+ escapeHtml g +:+ tag_G1.

Definition season_row (s : Season.t) : string :=
  season_S0 +:+ escapeHtml (Season.title s) +:+
  season_S1 +:+
    escapeHtml (match Season.description s with
                | Some d => String_or d EmptyString
                | None => EmptyString
                end) +:+
  season_S2 +:+ Number_toString (Num (Season.episodes s)) +:+
  season_S3.

(** The string [openModal(p)] assigns to [modalInner.innerHTML]. *)
Definition modal_html (toLocaleDateString : Date → string) (p : Podcast.t)
  : string :=
  modal_T0 +:+ escapeHtml (Podcast.title p) +:+
  modal_T1 +:+ Podcast.cover p +:+
  modal_T2 +:+ escapeHtml (Podcast.description p) +:+
  modal_T3 +:+ join_empty (map genre_tag (Podcast.genres p)) +:+
  modal_T4 +:+ Podcast.getFullDate toLocaleDateString p +:+
  modal_T5 +:+ join_empty (map season_row (Podcast.seasons p)) +:+
  modal_T6.

(** A record with every free-text field emptied: same cover, same date,
    same number of genres and seasons, same episode counts. *)
Definition blank_season (s : Season.t) : Season.t :=
  Season.mk EmptyString None (Season.episodes s).

Definition blank_text (p : Podcast.t) : Podcast.t :=
  {| Podcast.id := Podcast.id p;
     Podcast.title := EmptyString;
     Podcast.cover := Podcast.cover p;
     Podcast.description := EmptyString;
     Podcast.genres := map (λ _, EmptyString) (Podcast.genres p);
     Podcast.seasons := map blank_season (Podcast.seasons p);
     Podcast.updated := Podcast.updated p;
     Podcast.popularity := Podcast.popularity p |}.

(* ================================================================== *)
(** * The page: grid and modal *)

Inductive Listener : Type :=
  | handleEscClose      (* the named handler, added by [showModal] *)
  | documentEscape.     (* the anonymous handler bound at start-up *)

#[global] Instance Listener_eq_dec : EqDecision Listener.
Proof. solve_decision. Defined.

Inductive Element : Type :=
  | closeModalBtn
  | otherElement (name : string).

(** The part of the document the modal functions read and write. *)
Record Page : Type := mkPage {
  modal_classList : list string;
  modal_aria_hidden : option string;
  modalInner_innerHTML : string;
  document_keydown : list Listener;
  activeElement : option Element
}.

(** [classList.add(t)] and [classList.remove(t)]. *)
Definition classList_add (t : string) (cl : list string) : list string :=
  if Array_includes cl t then cl else cl ++ [t].

Definition classList_remove (t : string) (cl : list string) : list string :=
  List.filter (λ u, negb (String.eqb u t)) cl.

(** [addEventListener] ignores a listener already registered;
    [removeEventListener] removes it. *)
Definition addEventListener (f : Listener) (ls : list Listener)
  : list Listener :=
  if bool_decide (f ∈ ls) then ls else ls ++ [f].

Definition removeEventListener (f : Listener) (ls : list Listener)
  : list Listener :=
  List.filter (λ g, negb (bool_decide (g = f))) ls.

Definition showModal (pg : Page) : Page :=
  {| modal_classList := classList_add "show" (modal_classList pg);
     modal_aria_hidden := Some "false";
     modalInner_innerHTML := modalInner_innerHTML pg;
     document_keydown := addEventListener handleEscClose (document_keydown pg);
     activeElement := Some closeModalBtn |}.

Definition openModal (toLocaleDateString : Date → string) (p : Podcast.t)
  (pg : Page) : Page :=
  showModal
    {| modal_classList := modal_classList pg;
       modal_aria_hidden := modal_aria_hidden pg;
       modalInner_innerHTML := modal_html toLocaleDateString p;
       document_keydown := document_keydown pg;
       activeElement := activeElement pg |}.

Definition hideModal (pg : Page) : Page :=
  {| modal_classList := classList_remove "show" (modal_classList pg);
     modal_aria_hidden := Some "true";
     modalInner_innerHTML := EmptyString;
     document_keydown :=
       removeEventListener handleEscClose (document_keydown pg);
     activeElement := activeElement pg |}.

(** The closed state as an observer sees it. *)
Definition closed (pg : Page) : Prop :=
  ("show" ∉ modal_classList pg) ∧
  modal_aria_hidden pg = Some "true" ∧
  modalInner_innerHTML pg = EmptyString ∧
  (handleEscClose ∉ document_keydown pg).

(** One card of the grid, as [renderPodcasts] builds it. *)
Record Card : Type := mkCard {
  card_className : string;
  card_tabIndex : Z;
  card_ariaLabel : string;
  card_role : string;
  cover_className : string;
  cover_backgroundImage : string;   (* the value assigned to the style *)
  title_textContent : string;
  meta_textContent : string;
  tags_textContent : list string;
  updated_textContent : string;
  card_opens : Podcast.t            (* click or Enter: [openModal(p)] *)
}.

Inductive GridChild : Type :=
  | EmptyState (className textContent : string)
  | CardNode (c : Card).

Definition render_card (now : Z) (p : Podcast.t) : Card :=
  {| card_className := "podcast-card";
     card_tabIndex := 0;
     card_role := "button";
     card_ariaLabel :=
       Podcast.title p +:+ " — " +:+
       Number_toString (Num (Podcast.getSeasonCount p)) +:+ " seasons — " +:+
       Podcast.getLastUpdatedHuman now p;
     cover_className := "podcast-cover";
     cover_backgroundImage := "url('" +:+ Podcast.cover p +:+ "')";
     title_textContent := Podcast.title p;
     meta_textContent :=
       Number_toString (Num (Podcast.getSeasonCount p)) +:+ " " +:+
       (if (Podcast.getSeasonCount p =? 1)%Z then "season" else "seasons");
     tags_textContent := Podcast.genres p;
     updated_textContent := Podcast.getLastUpdatedHuman now p;
     card_opens := p |}.

(** The children of the grid after [renderPodcasts(list)]. *)
Definition renderPodcasts (now : Z) (l : list Podcast.t) : list GridChild :=
  match l with
  | [] => [EmptyState "empty-state" "No podcasts match your filters."]
  | _ => map (λ p, CardNode (render_card now p)) l
  end.

(** [updateUI()]: the grid rendered from the dataset array [dataset] for
    the current values of the genre, sort and search inputs. *)
Definition updateUI (now : Z) (dataset : ref) (genre sortBy q : string)
  : St (list GridChild) :=
  out ← filterByGenre dataset genre;
  out ← applySearch out q;
  out ← sortList out sortBy;
  xs ← Array_elements out;
  mret (renderPodcasts now xs).

(** The elements of the arrays the pipeline functions return, given the
    elements of their input. *)
Definition genre_filter_elements (genre : string) (l : list Podcast.t)
  : list Podcast.t :=
  if String_falsy genre || String.eqb genre "All Genres" then l
  else List.filter (λ p, Array_includes (Podcast.genres p) genre) l.

Definition search_elements (q : string) (l : list Podcast.t)
  : list Podcast.t :=
  let query := String_toLowerCase (String_trim q) in
  if String_falsy query then l else List.filter (search_matches query) l.

Definition sort_comparator (type : string)
  : Podcast.t → Podcast.t → Number :=
  if String.eqb type "Most Popular" then by_popularity else by_updated.

(** The id and popularity of a record, and the popularity comparator on
    such pairs. *)
Definition id_and_popularity (p : Podcast.t) : Z * Z :=
  (Podcast.id p, Podcast.popularity p).

Definition by_second_descending (a b : Z * Z) : Number :=
  Number_sub (Num (snd b)) (Num (snd a)).

(** Orders on records by update time.  [not_older a b]: the JavaScript
    comparison [a.updated < b.updated] is false.  [newer_or_same a b]:
    both dates are valid and [a] was updated no earlier than [b]. *)
Definition updated_time (p : Podcast.t) : Number :=
  getTime (Podcast.updated p).


Definition newer_or_same (a b : Podcast.t) : Prop :=
  ∃ ta tb, updated_time a = Num ta ∧ updated_time b = Num tb ∧ (tb ≤ ta)%Z.

(** Running [m] in store [h], where [lst] holds the elements [l], neither
    changes [lst] nor returns it: the result is a reference that was not
    in use, [lst] still holds [l], and no other array has changed. *)
Definition returns_new_array (m : St ref) (h : store) (lst : ref)
    (l : list Podcast.t) : Prop :=
  let '(r, h') := m h in
  r ≠ lst ∧ h !! r = None ∧ h' !! lst = Some l ∧
  ∀ a, a ≠ r → h' !! a = h !! a.

(** A source record whose [updated] string is not a date and whose
    [seasons] field is missing. *)
Definition malformed_record : Raw.t :=
  {| Raw.id := 9;
     Raw.title := "Untitled";
     Raw.cover := "cover.png";
     Raw.description := "No description";
     Raw.genres := [];
     Raw.seasons := Raw.Missing;
     Raw.updated := ArgString "not a date";
     Raw.popularity := 0 |}.

(** The raw values [new Date] turns into a valid date. *)
Definition parseable (Date_parse : string → Number) (v : DateArg) : Prop :=
  match v with
  | ArgUndefined => False
  | ArgNull => True
  | ArgNumber n => ∃ t, n = Num t ∧ (Z.abs t ≤ 8640000000000000)%Z
  | ArgString s =>
      ∃ t, Date_parse s = Num t ∧ (Z.abs t ≤ 8640000000000000)%Z
  | ArgDate d => valid_date d
  end.

(** A record with another cover. *)
Definition with_cover (c : string) (p : Podcast.t) : Podcast.t :=
  {| Podcast.id := Podcast.id p;
     Podcast.title := Podcast.title p;
     Podcast.cover := c;
     Podcast.description := Podcast.description p;
     Podcast.genres := Podcast.genres p;
     Podcast.seasons := Podcast.seasons p;
     Podcast.updated := Podcast.updated p;
     Podcast.popularity := Podcast.popularity p |}.

(** A page with the focus on the close button. *)
Definition focus_closeModalBtn (pg : Page) : Page :=
  {| modal_classList := modal_classList pg;
     modal_aria_hidden := modal_aria_hidden pg;
     modalInner_innerHTML := modalInner_innerHTML pg;
     document_keydown := document_keydown pg;
     activeElement := Some closeModalBtn |}.

(** The text of the template just before and just after the cover. *)
Definition before_cover : string :=
  "style=" +:+ dq +:+ "background-image:url('".

Definition after_cover : string := "')" +:+ dq +:+ "></div>".

(** A page load on 2025-01-20, used in the examples: the dates
    [daysAgoISO] yields, the dataset built with the date-only parser,
    and a store whose only array is the dataset. *)
Definition example_daysAgoISO (n : Z) : string :=
  "2025-01-" +:+ (if (20 - n <? 10)%Z then "0" else EmptyString) +:+
  Number_toString (Num (20 - n)).

Definition example_podcasts : list Podcast.t :=
  SAMPLE_PODCASTS iso_date_parse example_daysAgoISO.

Definition example_store : store := {[ 1%positive := example_podcasts ]}.

(** A reading of the clock on 2025-01-30, 01:00 UTC. *)
Definition example_now : Z := 1738198800000.

Definition tech_talks_daily : Podcast.t :=
  default (Podcast.mk 0 EmptyString EmptyString EmptyString [] []
             (mkDate NaN) 0)
          (head example_podcasts).

(* ================================================================== *)
(** * The genre dropdown and start-up *)

(** [set.add(g)] on a [Set] of strings, held as the list of its members
    in insertion order: a member already present is not added again. *)
Definition Set_add (g : string) (set : list string) : list string :=
  if Array_includes set g then set else set ++ [g].

(** The set [populateGenres] collects: the genres of all records, each
    once, in the order of their first occurrence. *)
Definition genre_set (l : list Podcast.t) : list string :=
  foldl (λ set p, foldl (λ set g, Set_add g set) set (Podcast.genres p))
        [] l.

(** [opts]: "All Genres" followed by the members of the set. *)
Definition genre_options (l : list Podcast.t) : list string :=
  "All Genres" :: genre_set l.

Definition option_html (g : string) : string :=
  "<option value=" +:+ dq +:+ g +:+ dq +:+ ">" +:+ g +:+ "</option>".

(** The string [populateGenres(list)] assigns to [genreFilter.innerHTML]. *)
Definition populateGenres (l : list Podcast.t) : string :=
  join_empty (map option_html (genre_options l)).

(** What [init()] puts on the page: the dropdown's HTML, the value of the
    sort control, and the grid rendered from a sorted copy of the
    dataset. *)
Record Startup : Type := mkStartup {
  genreFilter_innerHTML : string;
  sortFilter_value : string;
  grid_children : list GridChild
}.

Definition init (now : Z) (dataset : ref) : St Startup :=
  l ← Array_elements dataset;
  copy ← Array_slice dataset;
  out ← sortList copy "Recently Updated";
  xs ← Array_elements out;
  mret {| genreFilter_innerHTML := populateGenres l;
          sortFilter_value := "Recently Updated";
          grid_children := renderPodcasts now xs |}.

(** The cards among the children of the grid. *)
Definition cards (children : list GridChild) : list Card :=
  flat_map (λ ch, match ch with
                  | CardNode c => [c]
                  | EmptyState _ _ => []
                  end) children.

(** A sequence of modal operations applied to a page, first to last. *)
Inductive ModalOp : Type :=
  | OpOpen (p : Podcast.t)
  | OpClose.

Definition run_modal (tl : Date → string) (ops : list ModalOp) (pg : Page)
  : Page :=
  foldl (λ pg op, match op with
                  | OpOpen p => openModal tl p pg
                  | OpClose => hideModal pg
                  end) pg ops.

(** The five characters [escapeHtml] replaces. *)
Definition escaped_chars : list ascii :=
  ["&"; "<"; ">"; "034"; "'"]%char.

(** The query as [applySearch] uses it. *)
Definition normalized_query (q : string) : string :=
  String_toLowerCase (String_trim q).

(** Running one pipeline stage on the array another returned. *)
Definition then_stage (first : St ref) (second : ref → St ref) : St ref :=
  out ← first; second out.

(** A page as it may be at start-up: the modal closed, only the
    anonymous Escape handler registered, nothing focused. *)
Definition example_page : Page :=
  {| modal_classList := ["modal"];
     modal_aria_hidden := Some "true";
     modalInner_innerHTML := EmptyString;
     document_keydown := [documentEscape];
     activeElement := None |}.

(* ================================================================== *)
(** * Properties *)

(** ** The store *)

Lemma fresh_unallocated (h : store) : h !! fresh (dom h) = None.
Proof. apply not_elem_of_dom, is_fresh. Qed.

Lemma Array_alloc_result (xs : list Podcast.t) (h : store) :
  result_elements (Array_alloc xs) h = xs.
Proof.
  unfold result_elements, Array_alloc, elements_at.
  by rewrite lookup_insert_eq.
Qed.

(** Allocation returns a reference that was not in use and changes no
    existing array. *)
Lemma Array_alloc_frame (xs : list Podcast.t) (h : store) r h' :
  Array_alloc xs h = (r, h') →
  h !! r = None ∧ h' !! r = Some xs ∧ ∀ a, a ≠ r → h' !! a = h !! a.
Proof.
  unfold Array_alloc. intros [= <- <-]. split_and!.
  - apply fresh_unallocated.
  - apply lookup_insert_eq.
  - intros a Ha. by rewrite lookup_insert_ne.
Qed.

Lemma result_elements_run (m : St ref) (h : store) xs :
  m h = Array_alloc xs h → result_elements m h = xs.
Proof.
  intros E. pose proof (Array_alloc_result xs h) as R.
  unfold result_elements in *. by rewrite E.
Qed.

Lemma elements_at_Some (h : store) a l : h !! a = Some l → elements_at h a = l.
Proof. unfold elements_at. by intros ->. Qed.

(** ** Selection of the elements that satisfy a predicate *)

Section kept.
Context {A : Type}.
Implicit Types (P : A → Prop) (f : A → bool) (l out : list A).

Lemma filter_kept_by P f l :
  (∀ x, f x = true ↔ P x) → kept_by P l (List.filter f l).
Proof.
  intros Hf. induction l as [|x l IH]; simpl.
  - constructor.
  - destruct (f x) eqn:E.
    + constructor; [by apply Hf | done].
    + constructor; [|done]. intros HP. apply Hf in HP. congruence.
Qed.

Lemma kept_by_functional P l out1 out2 :
  kept_by P l out1 → kept_by P l out2 → out1 = out2.
Proof.
  intros H1. revert out2.
  induction H1; intros out2 H2; inversion H2; subst;
    try done; try (f_equal; auto); auto.
Qed.

Lemma kept_by_sublist P l out : kept_by P l out → sublist out l.
Proof. induction 1; by constructor. Qed.

Lemma kept_by_elem_of P l out :
  kept_by P l out → ∀ x, x ∈ out ↔ x ∈ l ∧ P x.
Proof.
  induction 1 as [|x l out HP _ IH|x l out HP _ IH]; intros y.
  - rewrite elem_of_nil. tauto.
  - rewrite !elem_of_cons, IH. intuition (subst; auto).
  - rewrite elem_of_cons, IH. intuition (subst; tauto).
Qed.

(** Nothing that satisfies [P] is lost, with multiplicity: the output
    has as many elements as [l] has elements satisfying [P]. *)
Lemma kept_by_all P l : (∀ x, x ∈ l → P x) → kept_by P l l.
Proof.
  induction l as [|x l IH]; intros H; constructor.
  - apply H. by left.
  - apply IH. intros y Hy. apply H. by right.
Qed.

End kept.

(** ** Strings *)

Lemma append_nil (s : string) : EmptyString +:+ s = s.
Proof. done. Qed.

Lemma append_cons c (s t : string) : String c s +:+ t = String c (s +:+ t).
Proof. done. Qed.

Lemma String_falsy_spec s : String_falsy s = true ↔ s = EmptyString.
Proof. destruct s; simpl; split; congruence. Qed.

Lemma String_or_empty s : String_or s EmptyString = s.
Proof. by destruct s. Qed.

(** [trim] removes a run of white space at each end and nothing else,
    and what it returns neither starts nor ends with white space. *)
Lemma String_trimStart_split s :
  ∃ ws, s = ws +:+ String_trimStart s ∧ all_white_space ws = true.
Proof.
  induction s as [|c s (ws & E & Hws)]; simpl.
  - by exists EmptyString.
  - destruct (is_white_space c) eqn:Hc.
    + exists (String c ws). rewrite append_cons, <- E. simpl.
      by rewrite Hc, Hws.
    + by exists EmptyString.
Qed.

Lemma String_trimEnd_split s :
  ∃ ws, s = String_trimEnd s +:+ ws ∧ all_white_space ws = true.
Proof.
  induction s as [|c s (ws & E & Hws)]; simpl.
  - by exists EmptyString.
  - destruct (String_trimEnd s) as [|d r] eqn:Hr.
    + rewrite append_nil in E. subst ws.
      destruct (is_white_space c) eqn:Hc.
      * exists (String c s). simpl. by rewrite Hc, Hws.
      * by exists s.
    + exists ws. by rewrite append_cons, <- E.
Qed.

Lemma String_trimStart_fixed c s :
  is_white_space c = false → String_trimStart (String c s) = String c s.
Proof. simpl. by intros ->. Qed.

Lemma String_trimEnd_idem s :
  String_trimEnd (String_trimEnd s) = String_trimEnd s.
Proof.
  induction s as [|c s IH]; simpl; [done|].
  destruct (String_trimEnd s) as [|d r] eqn:Hr.
  - destruct (is_white_space c) eqn:Hc; simpl; [done | by rewrite Hc].
  - change (String_trimEnd (String c (String d r)))
      with (match String_trimEnd (String d r) with
            | EmptyString => if is_white_space c then EmptyString
                             else String c EmptyString
            | r' => String c r'
            end).
    by rewrite IH.
Qed.

Lemma String_trimEnd_head c s :
  is_white_space c = false →
  ∃ r, String_trimEnd (String c s) = String c r.
Proof.
  intros Hc. simpl. destruct (String_trimEnd s) as [|d r].
  - rewrite Hc. by exists EmptyString.
  - by exists (String d r).
Qed.

Lemma String_trimStart_head s :
  match String_trimStart s with
  | EmptyString => True
  | String c _ => is_white_space c = false
  end.
Proof.
  induction s as [|c s IH]; simpl; [done|].
  by destruct (is_white_space c) eqn:Hc.
Qed.

Lemma String_trim_spec q :
  (∃ ws1 ws2, q = ws1 +:+ String_trim q +:+ ws2 ∧
              all_white_space ws1 = true ∧ all_white_space ws2 = true) ∧
  String_trimStart (String_trim q) = String_trim q ∧
  String_trimEnd (String_trim q) = String_trim q.
Proof.
  unfold String_trim. split_and!.
  - destruct (String_trimStart_split q) as (ws1 & E1 & H1).
    destruct (String_trimEnd_split (String_trimStart q)) as (ws2 & E2 & H2).
    exists ws1, ws2. by rewrite <- E2, <- E1.
  - pose proof (String_trimStart_head q) as Hh.
    destruct (String_trimStart q) as [|c t]; [done|].
    destruct (String_trimEnd_head c t Hh) as [r ->].
    by apply String_trimStart_fixed.
  - apply String_trimEnd_idem.
Qed.

Lemma Array_includes_spec xs x : Array_includes xs x = true ↔ x ∈ xs.
Proof.
  induction xs as [|y xs IH]; simpl.
  - rewrite elem_of_nil. split; [congruence | done].
  - rewrite elem_of_cons, orb_true_iff, IH, String.eqb_eq.
    intuition (subst; auto).
Qed.

(** ** What the pipeline functions compute, in store terms *)

Lemma filterByGenre_run (h : store) lst l genre :
  h !! lst = Some l →
  filterByGenre lst genre h = Array_alloc (genre_filter_elements genre l) h.
Proof.
  intros Hl. unfold filterByGenre, genre_filter_elements.
  destruct (String_falsy genre || String.eqb genre "All Genres");
    unfold Array_slice, Array_filter; by rewrite (elements_at_Some _ _ _ Hl).
Qed.

Lemma applySearch_run (h : store) lst l q :
  h !! lst = Some l →
  applySearch lst q h = Array_alloc (search_elements q l) h.
Proof.
  intros Hl. unfold applySearch, search_elements.
  rewrite String_or_empty.
  destruct (String_falsy _);
    unfold Array_slice, Array_filter; by rewrite (elements_at_Some _ _ _ Hl).
Qed.

Lemma sortList_run (h : store) lst l type :
  h !! lst = Some l →
  sortList lst type h =
  Array_alloc (sort_elements (sort_comparator type) l) h.
Proof.
  intros Hl. unfold sortList, sort_comparator, mbind, St_bind, Array_slice.
  rewrite (elements_at_Some _ _ _ Hl). unfold Array_alloc, Array_sort.
  assert (∀ cmp,
    (fresh (dom h),
     <[fresh (dom h) :=
         sort_elements cmp
           (elements_at (<[fresh (dom h) := l]> h) (fresh (dom h)))]>
       (<[fresh (dom h) := l]> h)) =
    (fresh (dom h), <[fresh (dom h) := sort_elements cmp l]> h)) as E.
  { intros cmp. unfold elements_at.
    by rewrite lookup_insert_eq, insert_insert_eq. }
  destruct (String.eqb type "Most Popular"); [apply E|].
  destruct (String.eqb type "Newest"); apply E.
Qed.

(** A function that allocates its result leaves its input as it was and
    returns a reference distinct from every array in use. *)
Lemma alloc_no_alias (h : store) lst l xs r h' :
  h !! lst = Some l →
  Array_alloc xs h = (r, h') →
  r ≠ lst ∧ h' !! lst = Some l ∧ h !! r = None ∧
  (∀ a, a ≠ r → h' !! a = h !! a).
Proof.
  intros Hl Hrun.
  destruct (Array_alloc_frame _ _ _ _ Hrun) as (Hnew & _ & Hframe).
  assert (r ≠ lst) as Hne by (intros ->; congruence).
  split_and!; [done| |done|done].
  rewrite Hframe; done.
Qed.

Lemma Array_alloc_run (xs : list Podcast.t) (h : store) :
  ∃ r, Array_alloc xs h = (r, <[r := xs]> h) ∧ h !! r = None.
Proof. exists (fresh (dom h)). split; [done | apply fresh_unallocated]. Qed.

(** [updateUI] renders the dataset filtered, searched and sorted, in this
    order, and leaves the dataset array as it was: a second run with the
    same inputs renders the same grid. *)
Lemma updateUI_grid now (h : store) dataset l genre sortBy q :
  h !! dataset = Some l →
  ∃ h',
    updateUI now dataset genre sortBy q h =
    (renderPodcasts now
       (sort_elements (sort_comparator sortBy)
          (search_elements q (genre_filter_elements genre l))), h') ∧
    h' !! dataset = Some l.
Proof.
  intros Hl. unfold updateUI, mbind, St_bind.
  rewrite (filterByGenre_run _ _ _ _ Hl).
  destruct (Array_alloc_run (genre_filter_elements genre l) h)
    as (r1 & -> & F1).
  set (h1 := <[r1 := genre_filter_elements genre l]> h).
  assert (h1 !! r1 = Some (genre_filter_elements genre l)) as H1
    by apply lookup_insert_eq.
  rewrite (applySearch_run _ _ _ _ H1).
  destruct (Array_alloc_run
              (search_elements q (genre_filter_elements genre l)) h1)
    as (r2 & -> & F2).
  set (h2 := <[r2 := search_elements q (genre_filter_elements genre l)]> h1).
  assert (h2 !! r2 =
          Some (search_elements q (genre_filter_elements genre l))) as H2
    by apply lookup_insert_eq.
  rewrite (sortList_run _ _ _ _ H2).
  destruct (Array_alloc_run
              (sort_elements (sort_comparator sortBy)
                 (search_elements q (genre_filter_elements genre l))) h2)
    as (r3 & -> & F3).
  eexists. split.
  - unfold Array_elements, elements_at, mret, St_ret.
    by rewrite lookup_insert_eq.
  - assert (h1 !! dataset = Some l) as D1.
    { subst h1. rewrite lookup_insert_ne; [done | congruence]. }
    assert (h2 !! dataset = Some l) as D2.
    { subst h2. rewrite lookup_insert_ne; [done | congruence]. }
    rewrite lookup_insert_ne; [done | congruence].
Qed.

Lemma updateUI_repeatable now (h : store) dataset l genre sortBy q :
  h !! dataset = Some l →
  let '(grid1, h1) := updateUI now dataset genre sortBy q h in
  let '(grid2, _) := updateUI now dataset genre sortBy q h1 in
  grid2 = grid1.
Proof.
  intros Hl.
  destruct (updateUI_grid now h dataset l genre sortBy q Hl)
    as (h1 & -> & Hl1).
  by destruct (updateUI_grid now h1 dataset l genre sortBy q Hl1)
    as (h2 & -> & _).
Qed.

(** ** filterByGenre *)

(** C1. For a genre that is neither empty nor "All Genres",
    [filterByGenre] returns exactly the records whose genres contain it
    (each record of the input kept exactly when its genres contain the
    genre), as a subsequence of the input in the input's order; for the
    empty genre and for "All Genres" it returns all records in order.  In
    both cases the result is a new array and the input array still holds
    its elements. *)
Theorem filterByGenre_spec (h : store) (lst : ref) (l : list Podcast.t)
    (g : string) :
  h !! lst = Some l →
  let out := result_elements (filterByGenre lst g) h in
  (g ≠ EmptyString → g ≠ "All Genres" →
     kept_by (λ p, g ∈ Podcast.genres p) l out ∧
     sublist out l ∧
     (∀ p, p ∈ out ↔ p ∈ l ∧ g ∈ Podcast.genres p)) ∧
  (g = EmptyString ∨ g = "All Genres" → out = l) ∧
  (∀ r h', filterByGenre lst g h = (r, h') →
     r ≠ lst ∧ h !! r = None ∧ h' !! lst = Some l).
Proof.
  intros Hl out. subst out.
  rewrite (result_elements_run _ _ _ (filterByGenre_run _ _ _ _ Hl)).
  rewrite (filterByGenre_run _ _ _ _ Hl). split_and!.
  - intros Hne Hall.
    assert (genre_filter_elements g l =
            List.filter (λ p, Array_includes (Podcast.genres p) g) l) as ->.
    { unfold genre_filter_elements.
      destruct (String_falsy g) eqn:E1.
      { apply String_falsy_spec in E1. done. }
      destruct (String.eqb g "All Genres") eqn:E2.
      { apply String.eqb_eq in E2. done. }
      done. }
    assert (kept_by (λ p, g ∈ Podcast.genres p) l
              (List.filter (λ p, Array_includes (Podcast.genres p) g) l)) as K.
    { apply filter_kept_by. intros p. apply Array_includes_spec. }
    split_and!; [done | by eapply kept_by_sublist | by apply kept_by_elem_of].
  - unfold genre_filter_elements. intros [-> | ->]; done.
  - intros r h' Hrun.
    destruct (alloc_no_alias _ _ _ _ _ _ Hl Hrun) as (? & ? & ? & _). done.
Qed.

(** ** The sort *)

Section sorting.
Context {A : Type} (comparefn : A → A → Number).
Implicit Types (x y : A) (l : list A).

Lemma sort_insert_perm x l : sort_insert comparefn x l ≡ₚ x :: l.
Proof.
  induction l as [|y l IH]; simpl; [done|].
  destruct (0 <? SortCompare comparefn x y)%Z; [|done].
  rewrite IH. apply Permutation_swap.
Qed.

Lemma sort_elements_perm l : sort_elements comparefn l ≡ₚ l.
Proof.
  induction l as [|x l IH]; simpl; [done|].
  fold (sort_elements comparefn l). by rewrite sort_insert_perm, IH.
Qed.

(** Adjacent elements of the result are in order, for every relation [R]
    that holds of [x], [y] when the comparator does not put [x] behind
    [y], and of [y], [x] when it does. *)
Section sorted.
Context (R : relation A).
Hypothesis R_keep : ∀ x y, (SortCompare comparefn x y ≤ 0)%Z → R x y.
Hypothesis R_move : ∀ x y, (0 < SortCompare comparefn x y)%Z → R y x.

Lemma sort_insert_HdRel x y l :
  R y x → HdRel R y l → HdRel R y (sort_insert comparefn x l).
Proof.
  intros Hyx Hl. destruct l as [|z l]; simpl; [by constructor|].
  inversion Hl; subst.
  destruct (0 <? SortCompare comparefn x z)%Z; by constructor.
Qed.

Lemma sort_insert_sorted x l :
  Sorted R l → Sorted R (sort_insert comparefn x l).
Proof.
  induction 1 as [|y l Hs IH Hhd]; simpl.
  - by repeat constructor.
  - destruct (0 <? SortCompare comparefn x y)%Z eqn:E.
    + apply Z.ltb_lt in E. constructor; [done|].
      apply sort_insert_HdRel; [by apply R_move | done].
    + apply Z.ltb_ge in E. constructor; [by constructor|].
      constructor. by apply R_keep.
Qed.

Lemma sort_elements_sorted l : Sorted R (sort_elements comparefn l).
Proof.
  induction l as [|x l IH]; simpl; [constructor|].
  by apply sort_insert_sorted.
Qed.

End sorted.

(** Stability: elements with the same key keep their relative order,
    provided the comparator never moves an element behind one with the
    same key. *)
Section stable.
Context {K : Type} `{EqDecision K} (key : A → K).
Hypothesis move_differs :
  ∀ x y, (0 < SortCompare comparefn x y)%Z → key x ≠ key y.

Lemma sort_insert_stable v x l :
  filter (λ a, key a = v) (sort_insert comparefn x l) =
  filter (λ a, key a = v) (x :: l).
Proof.
  induction l as [|y l IH]; simpl; [done|].
  destruct (0 <? SortCompare comparefn x y)%Z eqn:E; [|done].
  apply Z.ltb_lt, move_differs in E.
  rewrite filter_cons, IH, !filter_cons.
  repeat case_decide; congruence.
Qed.

Lemma sort_elements_stable v l :
  filter (λ a, key a = v) (sort_elements comparefn l) =
  filter (λ a, key a = v) l.
Proof.
  induction l as [|x l IH]; simpl; [done|].
  fold (sort_elements comparefn l).
  by rewrite sort_insert_stable, !filter_cons, IH.
Qed.

End stable.
End sorting.

(** Sorting commutes with a projection the comparator factors through. *)
Lemma sort_insert_map {A B} (f : A → B) cmpA cmpB x l :
  (∀ a b, cmpA a b = cmpB (f a) (f b)) →
  map f (sort_insert cmpA x l) = sort_insert cmpB (f x) (map f l).
Proof.
  intros Hf. induction l as [|y l IH]; simpl; [done|].
  unfold SortCompare. rewrite <- Hf.
  fold (SortCompare cmpA x y).
  destruct (0 <? SortCompare cmpA x y)%Z; simpl; [by rewrite IH | done].
Qed.

Lemma sort_elements_map {A B} (f : A → B) cmpA cmpB l :
  (∀ a b, cmpA a b = cmpB (f a) (f b)) →
  map f (sort_elements cmpA l) = sort_elements cmpB (map f l).
Proof.
  intros Hf. induction l as [|x l IH]; simpl; [done|].
  fold (sort_elements cmpA l). by rewrite (sort_insert_map f _ cmpB), IH.
Qed.

(** A list sorted in descending order of a key, in which the elements of
    each key stand in a given order, is unique: two stable sorts of the
    same list agree, whatever algorithm produced them. *)
Lemma stable_sorted_unique {A} (key : A → Z) (l1 l2 : list A) :
  StronglySorted (λ a b, (key b ≤ key a)%Z) l1 →
  StronglySorted (λ a b, (key b ≤ key a)%Z) l2 →
  (∀ v, filter (λ a, key a = v) l1 = filter (λ a, key a = v) l2) →
  l1 = l2.
Proof.
  intros S1. revert l2.
  induction S1 as [|x t1 S1 IH Hx]; intros l2 S2 Hf.
  - destruct l2 as [|y t2]; [done|].
    specialize (Hf (key y)). rewrite filter_nil, filter_cons in Hf.
    by rewrite decide_True in Hf.
  - destruct S2 as [|y t2 S2 Hy].
    { specialize (Hf (key x)). rewrite filter_nil, filter_cons in Hf.
      by rewrite decide_True in Hf. }
    assert (key x = key y) as Hk.
    { assert (x ∈ y :: t2) as Hin2.
      { apply (list_elem_of_filter (λ a, key a = key x)).
        rewrite <- Hf, filter_cons, decide_True by done. by left. }
      assert (y ∈ x :: t1) as Hin1.
      { apply (list_elem_of_filter (λ a, key a = key y)).
        rewrite Hf, filter_cons, decide_True by done. by left. }
      rewrite Forall_forall in Hx, Hy.
      apply elem_of_cons in Hin1 as [-> | Hin1]; [done|].
      apply elem_of_cons in Hin2 as [-> | Hin2]; [done|].
      specialize (Hx _ Hin1). specialize (Hy _ Hin2). lia. }
    assert (x = y) as ->.
    { specialize (Hf (key x)). rewrite !filter_cons in Hf.
      rewrite decide_True in Hf by done.
      rewrite decide_True in Hf by done. congruence. }
    f_equal. apply IH; [done|]. intros v. specialize (Hf v).
    rewrite !filter_cons in Hf. case_decide; congruence.
Qed.

(** ** sortList, mode "Most Popular" *)

Lemma id_and_popularity_zip (l : list Podcast.t) :
  map id_and_popularity l =
  zip (map Podcast.id l) (map Podcast.popularity l).
Proof. induction l as [|p l IH]; simpl; [done | by rewrite IH]. Qed.

Lemma by_popularity_compare a b :
  SortCompare by_popularity a b =
  (Podcast.popularity b - Podcast.popularity a)%Z.
Proof. done. Qed.

Lemma SAMPLE_PODCASTS_popularity Date_parse daysAgoISO :
  map Podcast.popularity (SAMPLE_PODCASTS Date_parse daysAgoISO) =
  [95; 88; 82; 91; 70; 99; 76; 85]%Z ∧
  map Podcast.id (SAMPLE_PODCASTS Date_parse daysAgoISO) =
  [1; 2; 3; 4; 5; 6; 7; 8]%Z.
Proof. done. Qed.

(** The order [sortList] gives for "Most Popular" is the only one that is
    descending by popularity and keeps records of equal popularity in
    their input order. *)
Lemma most_popular_order_unique (l out : list Podcast.t) :
  StronglySorted (λ a b, (Podcast.popularity b ≤ Podcast.popularity a)%Z)
    out →
  (∀ v : Z, filter (λ p, Podcast.popularity p = v) out =
            filter (λ p, Podcast.popularity p = v) l) →
  out = sort_elements by_popularity l.
Proof.
  intros Hs Hf. apply (stable_sorted_unique Podcast.popularity); [done| |].
  - apply Sorted_StronglySorted.
    + intros a b c ??. lia.
    + apply sort_elements_sorted;
        intros x y; rewrite by_popularity_compare; lia.
  - intros v. rewrite Hf. symmetry. apply sort_elements_stable.
    intros x y. rewrite by_popularity_compare. lia.
Qed.

(** C3. [sortList(list, "Most Popular")] returns a new array that is a
    permutation of the input, in which popularity does not increase from
    any element to the next, and in which records of equal popularity
    stand in their input order; the eight records with popularities
    95, 88, 82, 91, 70, 99, 76, 85 and ids 1 to 8 come out in the order
    6, 1, 4, 2, 8, 3, 7, 5. *)
Theorem sortList_most_popular (h : store) (lst : ref) (l : list Podcast.t) :
  h !! lst = Some l →
  let out := result_elements (sortList lst "Most Popular") h in
  out ≡ₚ l ∧
  Sorted (λ a b, (Podcast.popularity b ≤ Podcast.popularity a)%Z) out ∧
  (∀ v : Z, filter (λ p, Podcast.popularity p = v) out =
            filter (λ p, Podcast.popularity p = v) l) ∧
  (∀ r h', sortList lst "Most Popular" h = (r, h') →
     r ≠ lst ∧ h' !! lst = Some l) ∧
  (map Podcast.popularity l = [95; 88; 82; 91; 70; 99; 76; 85]%Z →
   map Podcast.id l = [1; 2; 3; 4; 5; 6; 7; 8]%Z →
   map Podcast.id out = [6; 1; 4; 2; 8; 3; 7; 5]%Z).
Proof.
  intros Hl out. subst out.
  rewrite (result_elements_run _ _ _ (sortList_run _ _ _ _ Hl)).
  rewrite (sortList_run _ _ _ _ Hl).
  change (sort_comparator "Most Popular") with by_popularity.
  split_and!.
  - apply sort_elements_perm.
  - apply sort_elements_sorted; intros x y; rewrite by_popularity_compare; lia.
  - intros v. apply sort_elements_stable.
    intros x y. rewrite by_popularity_compare. lia.
  - intros r h' Hrun.
    destruct (alloc_no_alias _ _ _ _ _ _ Hl Hrun) as (? & ? & _). done.
  - intros Hpop Hid.
    rewrite <- (map_map id_and_popularity fst).
    rewrite (sort_elements_map id_and_popularity by_popularity
               by_second_descending) by done.
    rewrite id_and_popularity_zip, Hid, Hpop. done.
Qed.

(** ** sortList, the recency modes *)





#[local] Instance newer_or_same_trans : Transitive newer_or_same.
Proof.
  intros a b c (ta & tb & Ha & Hb & Hab) (tb' & tc & Hb' & Hc & Hbc).
  rewrite Hb in Hb'. injection Hb' as <-.
  exists ta, tc. split_and!; [done | done | lia].
Qed.




(** ** No function of the pipeline mutates its input *)

Lemma Array_alloc_returns_new (h : store) lst l xs (m : St ref) :
  h !! lst = Some l →
  m h = Array_alloc xs h →
  returns_new_array m h lst l.
Proof.
  intros Hl Hm. unfold returns_new_array. rewrite Hm.
  destruct (Array_alloc xs h) as [r h'] eqn:E.
  destruct (alloc_no_alias _ _ _ _ _ _ Hl E) as (? & ? & ? & ?). done.
Qed.

(** By contrast [sort] works in place: it returns its argument, whose
    elements it has reordered.  [sortList] calls it on the copy. *)
Lemma Array_sort_in_place cmp (h : store) a l :
  h !! a = Some l →
  Array_sort cmp a h = (a, <[a := sort_elements cmp l]> h).
Proof.
  intros Hl. unfold Array_sort. by rewrite (elements_at_Some _ _ _ Hl).
Qed.

(** C9. [filterByGenre], [applySearch] and [sortList] do not mutate their
    input: after the call the input array holds the same elements in the
    same order, the returned array is a different object (a reference
    that was not in use before the call), and no other array has
    changed. *)
Theorem pipeline_does_not_mutate (h : store) (lst : ref)
    (l : list Podcast.t) (genre q type : string) :
  h !! lst = Some l →
  returns_new_array (filterByGenre lst genre) h lst l ∧
  returns_new_array (applySearch lst q) h lst l ∧
  returns_new_array (sortList lst type) h lst l.
Proof.
  intros Hl. split_and!.
  - eapply Array_alloc_returns_new; [done | by apply filterByGenre_run].
  - eapply Array_alloc_returns_new; [done | by apply applySearch_run].
  - eapply Array_alloc_returns_new; [done | by apply sortList_run].
Qed.

(** ** applySearch *)

Lemma String_startsWith_spec s t :
  String_startsWith s t = true ↔ ∃ post, s = t +:+ post.
Proof.
  revert s. induction t as [|c t IH]; intros s; simpl.
  - split; [by exists s | done].
  - destruct s as [|d s]; simpl.
    + split; [done | by intros [post ?]].
    + destruct (Ascii.eqb c d) eqn:E.
      * apply Ascii.eqb_eq in E as ->. rewrite IH.
        split; intros [post H]; exists post;
          rewrite append_cons in *; congruence.
      * apply Ascii.eqb_neq in E. split; [done|].
        intros [post H]. rewrite append_cons in H. congruence.
Qed.

Lemma String_includes_spec s t :
  String_includes s t = true ↔ substring_of t s.
Proof.
  unfold substring_of. induction s as [|c s IH]; simpl.
  - rewrite orb_false_r, String_startsWith_spec. split.
    + intros [post H]. by exists EmptyString, post.
    + intros (pre & post & H). destruct pre; [by exists post | done].
  - rewrite orb_true_iff, String_startsWith_spec, IH. split.
    + intros [[post H] | (pre & post & H)].
      * by exists EmptyString, post.
      * exists (String c pre), post. by rewrite append_cons, H.
    + intros (pre & post & H).
      destruct pre as [|d pre]; rewrite ?append_cons, ?append_nil in H.
      * left. by exists post.
      * right. exists pre, post. congruence.
Qed.

Lemma search_matches_spec query p :
  search_matches query p = true ↔
  substring_of query (String_toLowerCase (Podcast.title p)) ∨
  substring_of query
    (String_toLowerCase (Array_join " " (Podcast.genres p))).
Proof.
  unfold search_matches. by rewrite orb_true_iff, !String_includes_spec.
Qed.

(** C2. [applySearch] normalises the query by trimming and lower-casing
    it.  When the normalised query is empty it returns all records;
    otherwise it keeps exactly the records whose lower-cased title
    contains the query or whose lower-cased, space-joined genres string
    contains it, as a contiguous substring, in the input's order. *)
Theorem applySearch_spec (h : store) (lst : ref) (l : list Podcast.t)
    (q : string) :
  h !! lst = Some l →
  let query := String_toLowerCase (String_trim q) in
  let out := result_elements (applySearch lst q) h in
  (query = EmptyString → out = l) ∧
  (query ≠ EmptyString →
     kept_by
       (λ p, substring_of query (String_toLowerCase (Podcast.title p)) ∨
             substring_of query
               (String_toLowerCase (Array_join " " (Podcast.genres p))))
       l out ∧
     sublist out l).
Proof.
  intros Hl query out. subst out.
  rewrite (result_elements_run _ _ _ (applySearch_run _ _ _ _ Hl)).
  unfold search_elements. fold query. split.
  - by intros ->.
  - intros Hne. destruct (String_falsy query) eqn:E.
    { by apply String_falsy_spec in E. }
    assert (kept_by
       (λ p, substring_of query (String_toLowerCase (Podcast.title p)) ∨
             substring_of query
               (String_toLowerCase (Array_join " " (Podcast.genres p))))
       l (List.filter (search_matches query) l)) as K.
    { apply filter_kept_by. intros p. apply search_matches_spec. }
    split; [done | by eapply kept_by_sublist].
Qed.

(** ** The Podcast class *)

Lemma days_since_valid now p t :
  updated_time p = Num t →
  days_since now p = Num ((now - t) / msPerDay).
Proof. unfold days_since, updated_time. by intros ->. Qed.

Lemma getLastUpdatedHuman_of_days now p d :
  days_since now p = Num d →
  Podcast.getLastUpdatedHuman now p =
  if (d <=? 0)%Z then "Updated today"
  else if (d =? 1)%Z then "Updated yesterday"
  else if (d <? 7)%Z
  then "Updated " +:+ Number_toString (Num d) +:+ " days ago"
  else "Updated " +:+ Number_toString (Num (d / 7)) +:+ " week" +:+
       (if (1 <? d / 7)%Z then "s" else EmptyString) +:+ " ago".
Proof.
  unfold days_since, Podcast.getLastUpdatedHuman. by intros ->.
Qed.

(** An Invalid Date falls into none of the tiers. *)
Lemma getLastUpdatedHuman_invalid now p :
  updated_time p = NaN →
  Podcast.getLastUpdatedHuman now p = "Updated NaN week ago".
Proof.
  unfold updated_time, Podcast.getLastUpdatedHuman. by intros ->.
Qed.

(** C6. The "last updated" string is a function of the whole-day
    difference d = floor((now - updated) / one day) alone: "Updated
    today" for d <= 0, "Updated yesterday" for d = 1, "Updated d days
    ago" for 2 <= d <= 6, and for d >= 7 "Updated N week ago" with
    N = floor(d / 7), the word in the plural exactly when N > 1; so 10
    days give "Updated 1 week ago" and 15 days "Updated 2 weeks ago". *)
Theorem getLastUpdatedHuman_tiers (now : Z) (p : Podcast.t) (t : Z) :
  updated_time p = Num t →
  let d := ((now - t) / msPerDay)%Z in
  let s := Podcast.getLastUpdatedHuman now p in
  days_since now p = Num d ∧
  (∀ now' p', days_since now' p' = days_since now p →
              Podcast.getLastUpdatedHuman now' p' = s) ∧
  ((d ≤ 0)%Z → s = "Updated today") ∧
  (d = 1%Z → s = "Updated yesterday") ∧
  ((2 ≤ d ≤ 6)%Z →
     s = "Updated " +:+ Number_toString (Num d) +:+ " days ago") ∧
  ((7 ≤ d)%Z →
     s = "Updated " +:+ Number_toString (Num (d / 7)) +:+ " week" +:+
         (if (1 <? d / 7)%Z then "s" else EmptyString) +:+ " ago") ∧
  (d = 3%Z → s = "Updated 3 days ago") ∧
  (d = 10%Z → s = "Updated 1 week ago") ∧
  (d = 15%Z → s = "Updated 2 weeks ago").
Proof.
  intros Ht d s. pose proof (days_since_valid now p t Ht) as Hd.
  fold d in Hd. subst s.
  rewrite (getLastUpdatedHuman_of_days _ _ _ Hd).
  split_and!.
  - done.
  - intros now' p' E. rewrite Hd in E.
    by rewrite (getLastUpdatedHuman_of_days _ _ _ E).
  - intros H. by apply Z.leb_le in H as ->.
  - by intros ->.
  - intros H.
    destruct (d <=? 0)%Z eqn:E1; [apply Z.leb_le in E1; lia|].
    destruct (d =? 1)%Z eqn:E2; [apply Z.eqb_eq in E2; lia|].
    destruct (d <? 7)%Z eqn:E3; [done | apply Z.ltb_ge in E3; lia].
  - intros H.
    destruct (d <=? 0)%Z eqn:E1; [apply Z.leb_le in E1; lia|].
    destruct (d =? 1)%Z eqn:E2; [apply Z.eqb_eq in E2; lia|].
    destruct (d <? 7)%Z eqn:E3; [apply Z.ltb_lt in E3; lia | done].
  - by intros ->.
  - by intros ->.
  - by intros ->.
Qed.

Lemma Date_new_valid Date_parse v :
  valid_date (Date_new Date_parse v) ↔ parseable Date_parse v.
Proof.
  unfold valid_date. destruct v as [| |n|s|d]; simpl.
  - split; [by intros [t ?] | done].
  - split; [done | by exists 0%Z].
  - destruct n as [|z]; simpl.
    + split; [by intros [t ?] | by intros (t & ? & _)].
    + destruct (Z.abs z <=? 8640000000000000)%Z eqn:E.
      * apply Z.leb_le in E. split; [by exists z | by exists z].
      * apply Z.leb_gt in E. split; [by intros [t ?]|].
        intros (t & [= <-] & ?). lia.
  - destruct (Date_parse s) as [|z]; simpl.
    + split; [by intros [t ?] | by intros (t & ? & _)].
    + destruct (Z.abs z <=? 8640000000000000)%Z eqn:E.
      * apply Z.leb_le in E. split; [by exists z | by exists z].
      * apply Z.leb_gt in E. split; [by intros [t ?]|].
        intros (t & [= <-] & ?). lia.
  - done.
Qed.

(** C7, as the code has it.  Construction never fails.  A [seasons]
    field that is an array is kept, and one that is missing or is not an
    array becomes the empty array.  The update timestamp is not
    normalised: [updated] is the Date that [new Date] makes of the raw
    value, so a string the host cannot parse, like a missing field, gives
    an Invalid Date (time value NaN, not the epoch), and [updated] is a
    valid timestamp exactly when the raw value is parseable.  Every other
    field is copied. *)
Theorem constructor_defaults (Date_parse : string → Number) (o : Raw.t) :
  let p := Podcast.new Date_parse o in
  (∀ xs, Raw.seasons o = Raw.AnArray xs → Podcast.seasons p = xs) ∧
  ((∀ xs, Raw.seasons o ≠ Raw.AnArray xs) → Podcast.seasons p = []) ∧
  (∀ s, Raw.updated o = ArgString s → Date_parse s = NaN →
        updated_time p = NaN) ∧
  (Raw.updated o = ArgUndefined → updated_time p = NaN) ∧
  (valid_date (Podcast.updated p) ↔ parseable Date_parse (Raw.updated o)) ∧
  Podcast.id p = Raw.id o ∧ Podcast.title p = Raw.title o ∧
  Podcast.cover p = Raw.cover o ∧
  Podcast.description p = Raw.description o ∧
  Podcast.genres p = Raw.genres o ∧
  Podcast.popularity p = Raw.popularity o.
Proof.
  intros p. subst p. unfold updated_time. simpl. split_and!; try done.
  - by intros xs ->.
  - intros H. destruct (Raw.seasons o) as [| | | |xs]; try done.
    by destruct (H xs).
  - intros s Hs Hp. rewrite Hs. simpl. by rewrite Hp.
  - by intros ->.
  - apply Date_new_valid.
Qed.

(** The claim C7 as stated fails on a record with an unparseable
    timestamp: after construction [updated] is an Invalid Date, neither a
    valid timestamp nor the epoch, and comparing it in [sortList] with
    any record gives NaN in both directions. *)
Lemma constructor_keeps_invalid_date :
  (¬ valid_date
       (Podcast.updated (Podcast.new iso_date_parse malformed_record))) ∧
  Podcast.updated (Podcast.new iso_date_parse malformed_record)
    ≠ mkDate (Num 0) ∧
  updated_time (Podcast.new iso_date_parse malformed_record) = NaN ∧
  Podcast.seasons (Podcast.new iso_date_parse malformed_record) = [].
Proof.
  split_and!; [| done | done | done].
  intros [t Ht]. vm_compute in Ht. discriminate Ht.
Qed.

(** ** The modal *)

Lemma classList_remove_absent t cl : t ∉ classList_remove t cl.
Proof.
  unfold classList_remove. rewrite list_elem_of_In, filter_In.
  intros [_ H]. by rewrite String.eqb_refl in H.
Qed.

Lemma classList_remove_id t cl : t ∉ cl → classList_remove t cl = cl.
Proof.
  unfold classList_remove. induction cl as [|u cl IH]; simpl; [done|].
  rewrite not_elem_of_cons. intros [Hne Hcl].
  destruct (String.eqb u t) eqn:E.
  - apply String.eqb_eq in E. congruence.
  - simpl. by rewrite IH.
Qed.

Lemma removeEventListener_absent f ls : f ∉ removeEventListener f ls.
Proof.
  unfold removeEventListener. rewrite list_elem_of_In, filter_In.
  intros [_ H]. by rewrite bool_decide_eq_true_2 in H.
Qed.

Lemma removeEventListener_id f ls : f ∉ ls → removeEventListener f ls = ls.
Proof.
  unfold removeEventListener. induction ls as [|g ls IH]; simpl; [done|].
  rewrite not_elem_of_cons. intros [Hne Hls].
  rewrite bool_decide_eq_false_2 by congruence. simpl. by rewrite IH.
Qed.

Lemma classList_remove_add t cl :
  classList_remove t (classList_add t cl) = classList_remove t cl.
Proof.
  unfold classList_add. destruct (Array_includes cl t); [done|].
  unfold classList_remove. rewrite List.filter_app. simpl.
  rewrite String.eqb_refl. simpl. apply app_nil_r.
Qed.

Lemma removeEventListener_add f ls :
  removeEventListener f (addEventListener f ls) = removeEventListener f ls.
Proof.
  unfold addEventListener. case_bool_decide; [done|].
  unfold removeEventListener. rewrite List.filter_app. simpl.
  rewrite bool_decide_eq_true_2 by done. simpl. apply app_nil_r.
Qed.

Lemma hideModal_closed pg : closed (hideModal pg).
Proof.
  unfold closed, hideModal; simpl. split_and!; try done.
  - apply classList_remove_absent.
  - apply removeEventListener_absent.
Qed.

(** While the modal is open the class is set, the attribute says so, the
    detail content is the record's, and the Escape handler is attached:
    the open state is not a closed one. *)
Lemma openModal_open tl p pg :
  let pg' := openModal tl p pg in
  "show" ∈ modal_classList pg' ∧
  modal_aria_hidden pg' = Some "false" ∧
  modalInner_innerHTML pg' = modal_html tl p ∧
  handleEscClose ∈ document_keydown pg' ∧
  activeElement pg' = Some closeModalBtn.
Proof.
  simpl. split_and!; try done.
  - unfold classList_add.
    destruct (Array_includes _ _) eqn:E.
    + by apply Array_includes_spec.
    + apply elem_of_app. right. by left.
  - unfold addEventListener. case_bool_decide; [done|].
    apply elem_of_app. right. by left.
Qed.

(** C8. [hideModal] after [openModal(r)] leaves the page in a closed
    state (class "show" absent, aria-hidden "true", detail content
    empty, Escape handler detached) that is the same whatever the record
    was; and on a page that is already closed [hideModal] changes
    nothing. *)
Theorem hideModal_after_openModal (tl : Date → string) (r r' : Podcast.t)
    (pg : Page) :
  closed (hideModal (openModal tl r pg)) ∧
  hideModal (openModal tl r pg) = hideModal (openModal tl r' pg) ∧
  (closed pg → hideModal pg = pg) ∧
  hideModal (hideModal pg) = hideModal pg.
Proof.
  assert (∀ pg0, closed pg0 → hideModal pg0 = pg0) as Hid.
  { intros [cl ah ih kd ae] (Hcl & Hah & Hih & Hkd). simpl in *.
    unfold hideModal. simpl.
    rewrite classList_remove_id, removeEventListener_id by done.
    by subst. }
  split_and!.
  - apply hideModal_closed.
  - done.
  - apply Hid.
  - apply Hid, hideModal_closed.
Qed.

(** Opening and closing leaves the page as closing alone would, but for
    the focus, which stays on the close button. *)
Lemma hideModal_openModal_focus tl r pg :
  hideModal (openModal tl r pg) = focus_closeModalBtn (hideModal pg).
Proof.
  unfold hideModal, openModal, showModal, focus_closeModalBtn. simpl.
  by rewrite classList_remove_add, removeEventListener_add.
Qed.

(** ** HTML escaping *)

Lemma append_nil_r (s : string) : s +:+ EmptyString = s.
Proof. induction s as [|c s IH]; [done|]. by rewrite append_cons, IH. Qed.

Lemma count_char_app c s t :
  count_char c (s +:+ t) = count_char c s + count_char c t.
Proof.
  induction s as [|d s IH]; [done|].
  rewrite append_cons. simpl. rewrite IH. lia.
Qed.

Lemma join_empty_cons x xs : join_empty (x :: xs) = x +:+ join_empty xs.
Proof.
  unfold join_empty. destruct xs as [|y xs]; simpl.
  - by rewrite append_nil_r.
  - by rewrite append_nil.
Qed.

(** The replacement of a character holds no markup character. *)
Lemma escape_char_count c d :
  c ∈ markup_chars → count_char c (escape_char d) = 0.
Proof.
  unfold markup_chars. rewrite !elem_of_cons, elem_of_nil.
  intros [-> | [-> | [-> | [-> | []]]]];
    destruct d as [[] [] [] [] [] [] [] []]; reflexivity.
Qed.

Lemma escapeHtml_count c s :
  c ∈ markup_chars → count_char c (escapeHtml s) = 0.
Proof.
  intros Hc. induction s as [|d s IH]; simpl; [done|].
  by rewrite count_char_app, escape_char_count, IH.
Qed.

Lemma genre_tags_count c gs :
  c ∈ markup_chars →
  count_char c (join_empty (map genre_tag gs)) =
  count_char c (join_empty (map genre_tag (map (λ _, EmptyString) gs))).
Proof.
  intros Hc. induction gs as [|g gs IH]; simpl; [done|].
  rewrite !join_empty_cons, !count_char_app, IH. unfold genre_tag.
  rewrite !count_char_app, !escapeHtml_count by done. done.
Qed.

Lemma season_rows_count c ss :
  c ∈ markup_chars →
  count_char c (join_empty (map season_row ss)) =
  count_char c (join_empty (map season_row (map blank_season ss))).
Proof.
  intros Hc. induction ss as [|x ss IH]; simpl; [done|].
  rewrite !join_empty_cons, !count_char_app, IH. unfold season_row.
  rewrite !count_char_app, !escapeHtml_count by done. done.
Qed.

Lemma modal_html_count c tl p :
  c ∈ markup_chars →
  count_char c (modal_html tl p) =
  count_char c (modal_html tl (blank_text p)).
Proof.
  intros Hc. unfold modal_html, Podcast.getFullDate.
  generalize modal_T0 modal_T1 modal_T2 modal_T3 modal_T4 modal_T5 modal_T6.
  intros T0 T1 T2 T3 T4 T5 T6. simpl.
  rewrite !count_char_app, !escapeHtml_count by done.
  by rewrite (genre_tags_count c), (season_rows_count c) by done.
Qed.

(** C5. The string that [openModal] assigns to the detail view is
    [modal_html], in which the title, the description, every genre name
    and every season title and description enter through [escapeHtml].
    The output of [escapeHtml] holds none of the characters <, >, double
    quote and single quote, so these fields add no such character to the
    view: it holds each of them exactly as often as the view of the same
    record with all these fields emptied. *)
Theorem openModal_escapes_text (tl : Date → string) (p : Podcast.t)
    (pg : Page) :
  modalInner_innerHTML (openModal tl p pg) = modal_html tl p ∧
  Forall
    (λ c, (∀ s, count_char c (escapeHtml s) = 0) ∧
          count_char c (modal_html tl p) =
          count_char c (modal_html tl (blank_text p)))
    markup_chars.
Proof.
  split; [done|]. apply Forall_forall. intros c Hc. split.
  - intros s. by apply escapeHtml_count.
  - by apply modal_html_count.
Qed.

(** ** The cover *)

Lemma append_assoc_string (s t u : string) :
  (s +:+ t) +:+ u = s +:+ t +:+ u.
Proof.
  induction s as [|c s IH]; [done|]. by rewrite !append_cons, IH.
Qed.

Lemma modal_T1_ends :
  ∃ pre, modal_T1 = pre +:+ before_cover.
Proof.
  exists ("</h2>" +:+ nl +:+
          "    <div class=" +:+ dq +:+ "modal-top" +:+ dq +:+ ">" +:+ nl +:+
          "      <div class=" +:+ dq +:+ "modal-cover" +:+ dq +:+ " ").
  reflexivity.
Qed.

Lemma modal_T2_starts :
  ∃ post, modal_T2 = after_cover +:+ post.
Proof.
  exists (nl +:+
          "      <div>" +:+ nl +:+
          "        <div class=" +:+ dq +:+ "section-title" +:+ dq +:+
            ">Description</div>" +:+ nl +:+
          "        <p class=" +:+ dq +:+ "description" +:+ dq +:+ ">").
  reflexivity.
Qed.

Lemma modal_html_cover_count c tl p :
  count_char c (modal_html tl p) =
  count_char c (Podcast.cover p) +
  count_char c (modal_html tl (with_cover EmptyString p)).
Proof.
  unfold modal_html, Podcast.getFullDate.
  generalize modal_T0 modal_T1 modal_T2 modal_T3 modal_T4 modal_T5 modal_T6.
  intros T0 T1 T2 T3 T4 T5 T6. simpl.
  rewrite !count_char_app. simpl. lia.
Qed.

(** C10. The cover is never passed through [escapeHtml].  In the modal's
    HTML it stands verbatim between [before_cover], the opening of the
    style attribute up to the quote of the url, and [after_cover], so
    that every character of the cover, markup characters included, is a
    character of the HTML; and the value assigned to the background-image
    style of each card is the cover between the same url delimiters. *)
Theorem cover_inserted_verbatim (tl : Date → string) (now : Z)
    (p : Podcast.t) (l : list Podcast.t) :
  (∃ pre post,
     modal_html tl p =
     (pre +:+ before_cover) +:+ Podcast.cover p +:+ (after_cover +:+ post)) ∧
  (∀ c, count_char c (modal_html tl p) =
        count_char c (Podcast.cover p) +
        count_char c (modal_html tl (with_cover EmptyString p))) ∧
  cover_backgroundImage (render_card now p) =
    "url('" +:+ Podcast.cover p +:+ "')" ∧
  Forall
    (λ child,
       match child with
       | CardNode c =>
           cover_backgroundImage c =
           "url('" +:+ Podcast.cover (card_opens c) +:+ "')"
       | EmptyState _ _ => True
       end)
    (renderPodcasts now l).
Proof.
  split_and!.
  - destruct modal_T1_ends as [pre1 E1].
    destruct modal_T2_starts as [post2 E2].
    exists (modal_T0 +:+ escapeHtml (Podcast.title p) +:+ pre1).
    exists (post2 +:+ escapeHtml (Podcast.description p) +:+
            modal_T3 +:+ join_empty (map genre_tag (Podcast.genres p)) +:+
            modal_T4 +:+ Podcast.getFullDate tl p +:+
            modal_T5 +:+ join_empty (map season_row (Podcast.seasons p)) +:+
            modal_T6).
    unfold modal_html. rewrite E1, E2.
    generalize before_cover after_cover modal_T0 modal_T3 modal_T4 modal_T5
      modal_T6.
    intros. by rewrite !append_assoc_string.
  - intros c. apply modal_html_cover_count.
  - done.
  - destruct l as [|q l]; simpl.
    + by repeat constructor.
    + constructor; [done|]. apply Forall_forall. intros child Hin.
      apply list_elem_of_fmap in Hin as (q' & -> & _). done.
Qed.

(** ** Instances on the sample dataset *)

Lemma example_store_lookup : example_store !! 1%positive = Some example_podcasts.
Proof. apply lookup_singleton_eq. Qed.

(** The scenarios of the specification on the dataset: the genre
    "Comedy" selects record 3; the search "JunKie", surrounded by blanks,
    selects record 2; "TECH" selects record 1; "y b" selects record 1,
    through its joined genres "technology business", and record 3,
    through its title; "Newest" puts the records updated on the same day
    in their input order. *)
Example pipeline_scenarios :
  map Podcast.id (result_elements (filterByGenre 1 "Comedy") example_store)
    = [3]%Z ∧
  map Podcast.id (result_elements (applySearch 1 " JunKie ") example_store)
    = [2]%Z ∧
  map Podcast.id (result_elements (applySearch 1 "TECH") example_store)
    = [1]%Z ∧
  map Podcast.id (result_elements (applySearch 1 "y b") example_store)
    = [1; 3]%Z ∧
  map Podcast.id (result_elements (sortList 1 "Newest") example_store)
    = [5; 3; 6; 1; 4; 7; 2; 8]%Z.
Proof. split_and!; vm_compute; reflexivity. Qed.

Lemma filterByGenre_spec_witness :
  example_store !! 1%positive = Some example_podcasts ∧
  sublist (result_elements (filterByGenre 1 "Comedy") example_store)
          example_podcasts.
Proof.
  split; [exact example_store_lookup|].
  destruct (filterByGenre_spec example_store 1 example_podcasts "Comedy"
              example_store_lookup) as [H _].
  destruct H as (_ & H & _); [discriminate | discriminate | exact H].
Defined.

Lemma applySearch_spec_witness :
  example_store !! 1%positive = Some example_podcasts ∧
  sublist (result_elements (applySearch 1 " JunKie ") example_store)
          example_podcasts.
Proof.
  split; [exact example_store_lookup|].
  destruct (applySearch_spec example_store 1 example_podcasts " JunKie "
              example_store_lookup) as [_ H].
  destruct H as [_ H]; [discriminate | exact H].
Defined.

Lemma sortList_most_popular_witness :
  example_store !! 1%positive = Some example_podcasts ∧
  map Podcast.id
    (result_elements (sortList 1 "Most Popular") example_store) =
  [6; 1; 4; 2; 8; 3; 7; 5]%Z.
Proof.
  split; [exact example_store_lookup|].
  destruct (sortList_most_popular example_store 1 example_podcasts
              example_store_lookup) as (_ & _ & _ & _ & H).
  apply H; reflexivity.
Defined.


Lemma pipeline_does_not_mutate_witness :
  example_store !! 1%positive = Some example_podcasts ∧
  returns_new_array (sortList 1 "Most Popular") example_store 1
    example_podcasts.
Proof.
  split; [exact example_store_lookup|].
  destruct (pipeline_does_not_mutate example_store 1 example_podcasts
              "Comedy" "tech" "Most Popular" example_store_lookup)
    as (_ & _ & H).
  exact H.
Defined.

Lemma getLastUpdatedHuman_tiers_witness :
  updated_time tech_talks_daily = Num 1736899200000 ∧
  Podcast.getLastUpdatedHuman example_now tech_talks_daily =
  "Updated 2 weeks ago".
Proof.
  split; [reflexivity|].
  destruct (getLastUpdatedHuman_tiers example_now tech_talks_daily
              1736899200000 eq_refl) as (_ & _ & _ & _ & _ & _ & _ & _ & H).
  apply H. reflexivity.
Defined.

(* ================================================================== *)
(** * Further properties *)

(** ** escapeHtml as an encoding *)

(** X21. [escapeHtml] works character by character: the escaped form of
    a concatenation is the concatenation of the escaped forms, so text
    may be escaped whole or piece by piece. *)
Theorem escapeHtml_app (s t : string) :
  escapeHtml (s +:+ t) = escapeHtml s +:+ escapeHtml t.
Proof.
  induction s as [|c s IH]; [done|].
  rewrite append_cons. simpl. by rewrite IH, append_assoc_string.
Qed.

Ltac escape_cases c :=
  unfold escape_char;
  destruct (Ascii.eqb c "&") eqn:?;
    [|destruct (Ascii.eqb c "<") eqn:?;
      [|destruct (Ascii.eqb c ">") eqn:?;
        [|destruct (Ascii.eqb c "034") eqn:?;
          [|destruct (Ascii.eqb c "'") eqn:?]]]];
  repeat match goal with
         | H : Ascii.eqb _ _ = true |- _ => apply Ascii.eqb_eq in H
         | H : Ascii.eqb _ _ = false |- _ => apply Ascii.eqb_neq in H
         end.

(** The replacement of a character, followed by anything, tells the
    character and what follows. *)
Lemma escape_char_cancel c d x y :
  escape_char c +:+ x = escape_char d +:+ y → c = d ∧ x = y.
Proof.
  escape_cases c; escape_cases d; subst;
    rewrite ?append_cons, ?append_nil; intros E;
    try discriminate E; try (injection E as E; try discriminate E);
    try (by subst); congruence.
Qed.

Lemma escape_char_nonempty c x : escape_char c +:+ x ≠ EmptyString.
Proof. by escape_cases c; rewrite append_cons. Qed.

(** X1. [escapeHtml] loses nothing: two strings with the same escaped
    form are the same string.  In particular escaping twice gives the
    same as escaping once only for a string that escaping leaves
    unchanged. *)
Theorem escapeHtml_injective (s t : string) :
  (escapeHtml s = escapeHtml t ↔ s = t) ∧
  (escapeHtml (escapeHtml s) = escapeHtml s ↔ escapeHtml s = s).
Proof.
  assert (∀ u v, escapeHtml u = escapeHtml v → u = v) as Hinj.
  { induction u as [|c u IH]; intros [|d v]; simpl; intros E.
    - done.
    - symmetry in E. by apply escape_char_nonempty in E.
    - by apply escape_char_nonempty in E.
    - apply escape_char_cancel in E as [-> E]. f_equal. by apply IH. }
  split; (split; [apply Hinj | congruence]).
Qed.

Lemma String_length_app (s t : string) :
  String.length (s +:+ t) = String.length s + String.length t.
Proof.
  induction s as [|c s IH]; [done|]. rewrite append_cons. simpl. by rewrite IH.
Qed.

Lemma escape_char_length c : 1 ≤ String.length (escape_char c).
Proof. escape_cases c; simpl; lia. Qed.

Lemma escapeHtml_length s : String.length s ≤ String.length (escapeHtml s).
Proof.
  induction s as [|c s IH]; simpl; [done|].
  rewrite String_length_app. pose proof (escape_char_length c). lia.
Qed.

Lemma escape_char_plain c :
  c ∉ escaped_chars → escape_char c = String c EmptyString.
Proof.
  unfold escaped_chars. rewrite !not_elem_of_cons. intros (?&?&?&?&?&_).
  by escape_cases c.
Qed.

Lemma escape_char_special c :
  c ∈ escaped_chars →
  ∃ r, escape_char c = String "&" r ∧ 3 ≤ String.length r.
Proof.
  unfold escaped_chars. rewrite !elem_of_cons, elem_of_nil.
  intros [-> | [-> | [-> | [-> | [-> | []]]]]]; eexists;
    (split; [reflexivity | simpl; lia]).
Qed.

Lemma count_char_zero_cons c d s :
  count_char c (String d s) = 0 ↔ c ≠ d ∧ count_char c s = 0.
Proof.
  simpl. destruct (Ascii.eqb c d) eqn:E.
  - apply Ascii.eqb_eq in E. split; [lia | by intros [? _]].
  - apply Ascii.eqb_neq in E. split; [done | by intros [_ ?]].
Qed.

Lemma no_escaped_chars_cons d s :
  Forall (λ c, count_char c (String d s) = 0) escaped_chars ↔
  (d ∉ escaped_chars) ∧ Forall (λ c, count_char c s = 0) escaped_chars.
Proof.
  rewrite !Forall_forall. split.
  - intros H. split.
    + intros Hd. by destruct (proj1 (count_char_zero_cons d d s) (H d Hd)).
    + intros c Hc. by apply (count_char_zero_cons c d s), H.
  - intros [Hd H] c Hc. apply count_char_zero_cons.
    split; [by intros -> | by apply H].
Qed.

(** X2. [escapeHtml] returns its argument unchanged exactly when the
    argument holds none of the five characters it replaces. *)
Theorem escapeHtml_fixed_points (s : string) :
  escapeHtml s = s ↔ Forall (λ c, count_char c s = 0) escaped_chars.
Proof.
  induction s as [|d s IH].
  - split; [by intros _; repeat constructor | done].
  - change (escapeHtml (String d s)) with (escape_char d +:+ escapeHtml s).
    rewrite no_escaped_chars_cons, <- IH. split.
    + intros E. destruct (decide (d ∈ escaped_chars)) as [Hd|Hd].
      * destruct (escape_char_special d Hd) as (r & Er & Hr).
        rewrite Er, append_cons in E. injection E as _ E.
        pose proof (escapeHtml_length s) as Hl.
        apply (f_equal String.length) in E.
        rewrite String_length_app in E. lia.
      * rewrite (escape_char_plain d Hd), append_cons, append_nil in E.
        by injection E.
    + intros [Hd E]. by rewrite (escape_char_plain d Hd), append_cons,
        append_nil, E.
Qed.

(** ** The genre dropdown *)

Lemma Set_add_elem_of g set x : x ∈ Set_add g set ↔ x = g ∨ x ∈ set.
Proof.
  unfold Set_add. destruct (Array_includes set g) eqn:E.
  - apply Array_includes_spec in E. split; [by right|].
    by intros [-> | ?].
  - rewrite elem_of_app, list_elem_of_singleton. tauto.
Qed.

Lemma Set_add_NoDup g set : NoDup set → NoDup (Set_add g set).
Proof.
  intros Hnd. unfold Set_add. destruct (Array_includes set g) eqn:E; [done|].
  apply NoDup_app. split_and!; [done | | apply NoDup_singleton].
  intros x Hx ->%list_elem_of_singleton.
  apply Array_includes_spec in Hx. congruence.
Qed.

Lemma genre_set_flat (acc : list string) (l : list Podcast.t) :
  foldl (λ set p, foldl (λ set g, Set_add g set) set (Podcast.genres p))
        acc l =
  foldl (λ set g, Set_add g set) acc (concat (map Podcast.genres l)).
Proof.
  revert acc. induction l as [|p l IH]; intros acc; simpl; [done|].
  by rewrite foldl_app, IH.
Qed.

Lemma Set_add_all_first_occurrences (xs : list string) :
  foldl (λ set g, Set_add g set) [] xs =
  reverse (remove_dups (reverse xs)).
Proof.
  induction xs as [|g xs IH] using rev_ind; [done|].
  rewrite foldl_app, reverse_app. simpl. rewrite IH. unfold Set_add.
  assert (Array_includes (reverse (remove_dups (reverse xs))) g = true ↔
          g ∈ reverse xs) as Hin.
  { by rewrite Array_includes_spec, elem_of_reverse, elem_of_remove_dups. }
  destruct (decide_rel elem_of g (reverse xs)) as [Hg|Hg].
  - apply Hin in Hg. by rewrite Hg.
  - destruct (Array_includes _ g); [by destruct Hg; apply Hin|].
    by rewrite reverse_cons.
Qed.

Lemma genre_set_first_occurrences (l : list Podcast.t) :
  genre_set l =
  reverse (remove_dups (reverse (concat (map Podcast.genres l)))).
Proof.
  unfold genre_set. by rewrite genre_set_flat, Set_add_all_first_occurrences.
Qed.

Lemma genre_set_elem_of (l : list Podcast.t) g :
  g ∈ genre_set l ↔ ∃ p, p ∈ l ∧ g ∈ Podcast.genres p.
Proof.
  rewrite genre_set_first_occurrences.
  rewrite elem_of_reverse, elem_of_remove_dups, elem_of_reverse.
  rewrite list_elem_of_In, in_concat. split.
  - intros (gs & Hgs & Hg). apply in_map_iff in Hgs as (p & <- & Hp).
    exists p. by rewrite !list_elem_of_In.
  - intros (p & Hp & Hg). exists (Podcast.genres p).
    rewrite <- !list_elem_of_In. split; [|done].
    apply list_elem_of_fmap. by exists p.
Qed.

(** X3. The options [populateGenres] offers are "All Genres" followed by
    the genres of the records, each exactly once (a genre is offered
    exactly when some record carries it), in the order of their first
    occurrence in the list. *)
Theorem genre_options_spec (l : list Podcast.t) :
  genre_options l = "All Genres" :: genre_set l ∧
  NoDup (genre_set l) ∧
  (∀ g, g ∈ genre_set l ↔ ∃ p, p ∈ l ∧ g ∈ Podcast.genres p) ∧
  genre_set l =
    reverse (remove_dups (reverse (concat (map Podcast.genres l)))).
Proof.
  split_and!; [done | | | apply genre_set_first_occurrences].
  - rewrite genre_set_first_occurrences, reverse_Permutation.
    apply NoDup_remove_dups.
  - intros g. apply genre_set_elem_of.
Qed.

(** X4. Every genre the dropdown offers selects at least one record:
    [filterByGenre] with a genre collected by [populateGenres] returns a
    non-empty array that holds a record carrying the genre. *)
Theorem genre_option_selects_some (h : store) (lst : ref)
    (l : list Podcast.t) (g : string) :
  h !! lst = Some l →
  g ∈ genre_set l →
  ∃ p, p ∈ result_elements (filterByGenre lst g) h ∧ g ∈ Podcast.genres p.
Proof.
  intros Hl (p & Hp & Hg)%genre_set_elem_of. exists p. split; [|done].
  rewrite (result_elements_run _ _ _ (filterByGenre_run _ _ _ _ Hl)).
  unfold genre_filter_elements.
  destruct (String_falsy g || String.eqb g "All Genres"); [done|].
  apply list_elem_of_In, filter_In. split; [by apply list_elem_of_In|].
  by apply Array_includes_spec.
Qed.

Lemma genre_option_selects_some_witness :
  example_store !! 1%positive = Some example_podcasts ∧
  "Comedy" ∈ genre_set example_podcasts ∧
  ∃ p, p ∈ result_elements (filterByGenre 1 "Comedy") example_store ∧
       "Comedy" ∈ Podcast.genres p.
Proof.
  assert ("Comedy" ∈ genre_set example_podcasts) as Hin
    by (by apply Array_includes_spec).
  split; [exact example_store_lookup|]. split; [exact Hin|].
  exact (genre_option_selects_some example_store 1 example_podcasts "Comedy"
           example_store_lookup Hin).
Defined.

Lemma option_html_count c g :
  count_char c (option_html g) =
  count_char c (option_html EmptyString) + 2 * count_char c g.
Proof. unfold option_html. rewrite !count_char_app. simpl. lia. Qed.

(** X5. [populateGenres] does not escape: in the HTML it assigns to the
    dropdown every option contributes, besides the fixed text of an
    option element, each character of its genre twice (once in the value
    attribute, once as the label), markup characters included. *)
Theorem populateGenres_not_escaped (l : list Podcast.t) (c : ascii) :
  count_char c (populateGenres l) =
  sum_list_with
    (λ g, count_char c (option_html EmptyString) + 2 * count_char c g)
    (genre_options l).
Proof.
  unfold populateGenres.
  induction (genre_options l) as [|g gs IH]; simpl; [done|].
  by rewrite join_empty_cons, count_char_app, IH, option_html_count.
Qed.

(** ** The grid *)

(** X6. [renderPodcasts] shows one card per record, in the order of the
    list, each opening its own record; for the empty list, and only for
    it, the grid holds the empty-state message instead and no card. *)
Theorem renderPodcasts_cards (now : Z) (l : list Podcast.t) :
  map card_opens (cards (renderPodcasts now l)) = l ∧
  cards (renderPodcasts now l) = map (render_card now) l ∧
  (l = [] ↔
   renderPodcasts now l =
   [EmptyState "empty-state" "No podcasts match your filters."]) ∧
  (l ≠ [] → length (renderPodcasts now l) = length l).
Proof.
  assert (∀ l', cards (map (λ p, CardNode (render_card now p)) l') =
                map (render_card now) l') as Hc.
  { induction l' as [|p l' IH]; simpl; [done | by rewrite IH]. }
  destruct l as [|p l].
  - by split_and!.
  - unfold renderPodcasts. rewrite Hc. split_and!.
    + by rewrite map_map, map_id.
    + done.
    + split; discriminate.
    + intros _. apply length_map.
Qed.

(** ** The modal as a state machine *)

Lemma classList_add_elem_of t cl : t ∈ classList_add t cl.
Proof.
  unfold classList_add. destruct (Array_includes cl t) eqn:E.
  - by apply Array_includes_spec.
  - apply elem_of_app. right. by left.
Qed.

Lemma classList_add_present t cl : t ∈ cl → classList_add t cl = cl.
Proof.
  intros Hin. unfold classList_add.
  apply Array_includes_spec in Hin. by rewrite Hin.
Qed.

Lemma classList_add_NoDup t cl : NoDup cl → NoDup (classList_add t cl).
Proof. apply (Set_add_NoDup t cl). Qed.

Lemma classList_remove_NoDup t cl : NoDup cl → NoDup (classList_remove t cl).
Proof. rewrite !NoDup_ListNoDup. apply List.NoDup_filter. Qed.

Lemma addEventListener_elem_of f ls : f ∈ addEventListener f ls.
Proof.
  unfold addEventListener. case_bool_decide; [done|].
  apply elem_of_app. right. by left.
Qed.

Lemma addEventListener_present f ls : f ∈ ls → addEventListener f ls = ls.
Proof. intros Hin. unfold addEventListener. by rewrite bool_decide_eq_true_2. Qed.

Lemma addEventListener_NoDup f ls : NoDup ls → NoDup (addEventListener f ls).
Proof.
  intros Hnd. unfold addEventListener. case_bool_decide; [done|].
  apply NoDup_app. split_and!; [done | | apply NoDup_singleton].
  by intros x Hx ->%list_elem_of_singleton.
Qed.

Lemma removeEventListener_NoDup f ls :
  NoDup ls → NoDup (removeEventListener f ls).
Proof. rewrite !NoDup_ListNoDup. apply List.NoDup_filter. Qed.

(** X7. Opening the modal while it is open replaces the detail content
    and nothing else: the page is the one that opening the second record
    directly would give, with no second "show" token and no second
    Escape handler. *)
Theorem openModal_twice (tl : Date → string) (r r' : Podcast.t) (pg : Page) :
  openModal tl r' (openModal tl r pg) = openModal tl r' pg.
Proof.
  unfold openModal, showModal. simpl.
  rewrite (classList_add_present "show" (classList_add "show" _))
    by apply classList_add_elem_of.
  by rewrite (addEventListener_present handleEscClose
                (addEventListener handleEscClose _))
    by apply addEventListener_elem_of.
Qed.

Lemma run_modal_snoc tl ops op pg :
  run_modal tl (ops ++ [op]) pg =
  match op with
  | OpOpen p => openModal tl p (run_modal tl ops pg)
  | OpClose => hideModal (run_modal tl ops pg)
  end.
Proof. unfold run_modal. by rewrite foldl_app. Qed.

Lemma classList_add_other t u cl : u ≠ t → u ∈ classList_add t cl ↔ u ∈ cl.
Proof.
  intros Hne. unfold classList_add. destruct (Array_includes cl t); [done|].
  rewrite elem_of_app, list_elem_of_singleton. tauto.
Qed.

Lemma classList_remove_other t u cl :
  u ≠ t → u ∈ classList_remove t cl ↔ u ∈ cl.
Proof.
  intros Hne. unfold classList_remove.
  rewrite !list_elem_of_In, filter_In, negb_true_iff, String.eqb_neq. tauto.
Qed.

Lemma addEventListener_other f g ls :
  g ≠ f → g ∈ addEventListener f ls ↔ g ∈ ls.
Proof.
  intros Hne. unfold addEventListener. case_bool_decide; [done|].
  rewrite elem_of_app, list_elem_of_singleton. tauto.
Qed.

Lemma removeEventListener_other f g ls :
  g ≠ f → g ∈ removeEventListener f ls ↔ g ∈ ls.
Proof.
  intros Hne. unfold removeEventListener.
  rewrite !list_elem_of_In, filter_In, negb_true_iff, bool_decide_eq_false.
  tauto.
Qed.

(** X8. Whatever sequence of openings and closings the modal goes
    through, the class list never holds a token twice and no handler is
    registered twice (given that this was so at the start); its other
    class tokens and the anonymous Escape handler are never touched; and
    the state depends on the last operation alone: closed after a
    closing, and after an opening open with the detail content of the
    record opened last. *)
Theorem run_modal_invariant (tl : Date → string) (ops : list ModalOp)
    (pg : Page) :
  NoDup (modal_classList pg) →
  NoDup (document_keydown pg) →
  let pg' := run_modal tl ops pg in
  NoDup (modal_classList pg') ∧
  NoDup (document_keydown pg') ∧
  (∀ t, t ≠ "show" → t ∈ modal_classList pg' ↔ t ∈ modal_classList pg) ∧
  (documentEscape ∈ document_keydown pg' ↔
   documentEscape ∈ document_keydown pg) ∧
  match last ops with
  | None => pg' = pg
  | Some OpClose => closed pg'
  | Some (OpOpen p) =>
      "show" ∈ modal_classList pg' ∧
      modal_aria_hidden pg' = Some "false" ∧
      modalInner_innerHTML pg' = modal_html tl p ∧
      handleEscClose ∈ document_keydown pg'
  end.
Proof.
  intros Hcl Hkd. simpl.
  induction ops as [|op ops IH] using rev_ind; [by split_and!|].
  destruct IH as (IH1 & IH2 & IH3 & IH4 & _).
  rewrite run_modal_snoc, last_snoc.
  destruct op as [p|]; simpl.
  - refine (conj _ (conj _ (conj _ (conj _ _)))).
    + by apply classList_add_NoDup.
    + by apply addEventListener_NoDup.
    + intros t Ht. by rewrite classList_add_other, IH3.
    + by rewrite addEventListener_other, IH4.
    + split_and!; [apply classList_add_elem_of | done | done |
                   apply addEventListener_elem_of].
  - refine (conj _ (conj _ (conj _ (conj _ _)))).
    + by apply classList_remove_NoDup.
    + by apply removeEventListener_NoDup.
    + intros t Ht. by rewrite classList_remove_other, IH3.
    + by rewrite removeEventListener_other, IH4.
    + apply hideModal_closed.
Qed.

Lemma run_modal_invariant_witness :
  NoDup (modal_classList example_page) ∧
  NoDup (document_keydown example_page) ∧
  closed (run_modal (λ _, EmptyString)
            [OpOpen tech_talks_daily; OpOpen tech_talks_daily; OpClose]
            example_page).
Proof.
  assert (NoDup (modal_classList example_page)) as H1
    by apply NoDup_singleton.
  assert (NoDup (document_keydown example_page)) as H2
    by apply NoDup_singleton.
  split_and!; [done | done |].
  destruct (run_modal_invariant (λ _, EmptyString)
              [OpOpen tech_talks_daily; OpOpen tech_talks_daily; OpClose]
              example_page H1 H2) as (_ & _ & _ & _ & H).
  exact H.
Defined.

Lemma hideModal_closed_id pg : closed pg → hideModal pg = pg.
Proof.
  destruct pg as [cl ah ih kd ae]. intros (Hcl & Hah & Hih & Hkd).
  simpl in *. unfold hideModal. simpl.
  rewrite classList_remove_id, removeEventListener_id by done. by subst.
Qed.

(** X9. Opening a record on a closed page and closing again restores the
    page but for the focus: every part of the page is as before, and the
    focus is on the close button, not back where it was. *)
Theorem open_close_round_trip (tl : Date → string) (r : Podcast.t)
    (pg : Page) :
  closed pg →
  hideModal (openModal tl r pg) = focus_closeModalBtn pg ∧
  (activeElement pg = Some closeModalBtn →
   hideModal (openModal tl r pg) = pg).
Proof.
  intros Hc. rewrite hideModal_openModal_focus, (hideModal_closed_id _ Hc).
  split; [done|]. destruct pg as [cl ah ih kd ae]. simpl.
  intros ->. done.
Qed.

Lemma open_close_round_trip_witness :
  closed example_page ∧
  hideModal (openModal (λ _, EmptyString) tech_talks_daily example_page) =
  focus_closeModalBtn example_page.
Proof.
  assert (closed example_page) as Hc.
  { unfold closed, example_page. simpl. split_and!; [|done|done|];
      rewrite !not_elem_of_cons; split_and!; try discriminate;
      apply not_elem_of_nil. }
  split; [exact Hc|].
  destruct (open_close_round_trip (λ _, EmptyString) tech_talks_daily
              example_page Hc) as [H _].
  exact H.
Defined.

(** ** How the pipeline stages compose *)

(** The elements a two-stage pipeline returns, when each stage allocates
    its result. *)
Lemma then_stage_elements (first : St ref) (second : ref → St ref)
    (h : store) xs ys :
  first h = Array_alloc xs h →
  (∀ h1 r, h1 !! r = Some xs → second r h1 = Array_alloc ys h1) →
  result_elements (then_stage first second) h = ys.
Proof.
  intros H1 H2. unfold then_stage, result_elements, mbind, St_bind.
  rewrite H1. destruct (Array_alloc_run xs h) as (r & -> & _).
  rewrite (H2 _ r) by apply lookup_insert_eq.
  apply (Array_alloc_result ys).
Qed.

Lemma List_filter_comm {A} (f g : A → bool) (l : list A) :
  List.filter f (List.filter g l) = List.filter g (List.filter f l).
Proof.
  induction l as [|x l IH]; simpl; [done|].
  destruct (f x) eqn:Ef, (g x) eqn:Eg; simpl; rewrite ?Ef, ?Eg, IH; done.
Qed.

Lemma List_filter_idem {A} (f : A → bool) (l : list A) :
  List.filter f (List.filter f l) = List.filter f l.
Proof.
  induction l as [|x l IH]; simpl; [done|].
  destruct (f x) eqn:Ef; simpl; rewrite ?Ef, IH; done.
Qed.

Lemma genre_search_elements_comm g q (l : list Podcast.t) :
  search_elements q (genre_filter_elements g l) =
  genre_filter_elements g (search_elements q l).
Proof.
  unfold search_elements, genre_filter_elements.
  destruct (String_falsy (String_toLowerCase (String_trim q))),
           (String_falsy g || String.eqb g "All Genres"); try done.
  apply List_filter_comm.
Qed.

(** X10. [updateUI] renders the dataset filtered by genre, then searched,
    then sorted; it leaves the dataset array as it was, so that a second
    run with the same inputs renders the same grid. *)
Theorem updateUI_pipeline (now : Z) (h : store) (dataset : ref)
    (l : list Podcast.t) (genre sortBy q : string) :
  h !! dataset = Some l →
  let run := updateUI now dataset genre sortBy q h in
  run.1 =
    renderPodcasts now
      (sort_elements (sort_comparator sortBy)
         (search_elements q (genre_filter_elements genre l))) ∧
  run.2 !! dataset = Some l ∧
  (updateUI now dataset genre sortBy q run.2).1 = run.1.
Proof.
  intros Hl. simpl.
  destruct (updateUI_grid now h dataset l genre sortBy q Hl)
    as (h1 & -> & Hl1). simpl.
  destruct (updateUI_grid now h1 dataset l genre sortBy q Hl1)
    as (h2 & -> & _).
  done.
Qed.

Lemma updateUI_pipeline_witness :
  example_store !! 1%positive = Some example_podcasts ∧
  cards (updateUI example_now 1 "Business" "Most Popular" "daily"
           example_store).1 =
  [render_card example_now tech_talks_daily].
Proof.
  split; [exact example_store_lookup|].
  destruct (updateUI_pipeline example_now example_store 1 example_podcasts
              "Business" "Most Popular" "daily" example_store_lookup)
    as (H & _).
  rewrite H. reflexivity.
Defined.

(** X11. Filtering by genre and searching commute: either order gives
    the same records in the same order. *)
Theorem filter_search_commute (h : store) (lst : ref) (l : list Podcast.t)
    (g q : string) :
  h !! lst = Some l →
  result_elements
    (then_stage (filterByGenre lst g) (λ out, applySearch out q)) h =
  result_elements
    (then_stage (applySearch lst q) (λ out, filterByGenre out g)) h.
Proof.
  intros Hl.
  rewrite (then_stage_elements _ _ h (genre_filter_elements g l)
             (search_elements q (genre_filter_elements g l)));
    [| by apply filterByGenre_run | intros; by apply applySearch_run].
  rewrite (then_stage_elements _ _ h (search_elements q l)
             (genre_filter_elements g (search_elements q l)));
    [| by apply applySearch_run | intros; by apply filterByGenre_run].
  apply genre_search_elements_comm.
Qed.

Lemma filter_search_commute_witness :
  example_store !! 1%positive = Some example_podcasts ∧
  result_elements
    (then_stage (filterByGenre 1 "Business") (λ out, applySearch out "tech"))
    example_store =
  result_elements
    (then_stage (applySearch 1 "tech") (λ out, filterByGenre out "Business"))
    example_store.
Proof.
  split; [exact example_store_lookup|].
  exact (filter_search_commute example_store 1 example_podcasts
           "Business" "tech" example_store_lookup).
Defined.





Lemma StronglySorted_List_filter {A} (R : relation A) (f : A → bool) l :
  StronglySorted R l → StronglySorted R (List.filter f l).
Proof.
  induction 1 as [|x l Hs IH Hx]; simpl; [constructor|].
  destruct (f x); [|done]. constructor; [done|].
  rewrite Forall_forall in Hx |- *. intros y Hy.
  apply Hx. apply list_elem_of_In, filter_In in Hy as [Hy _].
  by apply list_elem_of_In.
Qed.

Lemma filter_List_filter_comm {A} (P : A → Prop) `{∀ x, Decision (P x)}
    (f : A → bool) (l : list A) :
  filter P (List.filter f l) = List.filter f (filter P l).
Proof.
  induction l as [|x l IH]; simpl; [done|].
  rewrite filter_cons. destruct (f x) eqn:Ef, (decide (P x)); simpl;
    rewrite ?filter_cons, ?Ef, ?IH; try done.
  - by rewrite decide_True.
  - by rewrite decide_False.
Qed.

(** For "Most Popular", selecting with any test commutes with sorting. *)
Lemma most_popular_filter_comm (f : Podcast.t → bool) (l : list Podcast.t) :
  List.filter f (sort_elements by_popularity l) =
  sort_elements by_popularity (List.filter f l).
Proof.
  apply most_popular_order_unique.
  - apply StronglySorted_List_filter, Sorted_StronglySorted.
    + intros a b c ??. lia.
    + apply sort_elements_sorted;
        intros x y; rewrite by_popularity_compare; lia.
  - intros v. rewrite !filter_List_filter_comm. f_equal.
    apply sort_elements_stable.
    intros x y. rewrite by_popularity_compare. lia.
Qed.

(** X13. For the mode "Most Popular" the place of the sort in the
    pipeline does not matter: sorting first and then filtering by genre,
    or searching, gives the same records in the same order as filtering,
    or searching, first and sorting last. *)
Theorem most_popular_sort_commutes (h : store) (lst : ref)
    (l : list Podcast.t) (g q : string) :
  h !! lst = Some l →
  result_elements
    (then_stage (sortList lst "Most Popular")
                (λ out, filterByGenre out g)) h =
  result_elements
    (then_stage (filterByGenre lst g)
                (λ out, sortList out "Most Popular")) h ∧
  result_elements
    (then_stage (sortList lst "Most Popular")
                (λ out, applySearch out q)) h =
  result_elements
    (then_stage (applySearch lst q)
                (λ out, sortList out "Most Popular")) h.
Proof.
  intros Hl. split.
  - rewrite (then_stage_elements _ _ h (sort_elements by_popularity l)
               (genre_filter_elements g (sort_elements by_popularity l)));
      [| by apply sortList_run | intros; by apply filterByGenre_run].
    rewrite (then_stage_elements _ _ h (genre_filter_elements g l)
               (sort_elements by_popularity (genre_filter_elements g l)));
      [| by apply filterByGenre_run | intros; by apply sortList_run].
    unfold genre_filter_elements.
    destruct (String_falsy g || String.eqb g "All Genres"); [done|].
    apply most_popular_filter_comm.
  - rewrite (then_stage_elements _ _ h (sort_elements by_popularity l)
               (search_elements q (sort_elements by_popularity l)));
      [| by apply sortList_run | intros; by apply applySearch_run].
    rewrite (then_stage_elements _ _ h (search_elements q l)
               (sort_elements by_popularity (search_elements q l)));
      [| by apply applySearch_run | intros; by apply sortList_run].
    unfold search_elements.
    destruct (String_falsy _); [done|].
    apply most_popular_filter_comm.
Qed.

Lemma most_popular_sort_commutes_witness :
  example_store !! 1%positive = Some example_podcasts ∧
  result_elements
    (then_stage (sortList 1 "Most Popular")
                (λ out, filterByGenre out "Business")) example_store =
  result_elements
    (then_stage (filterByGenre 1 "Business")
                (λ out, sortList out "Most Popular")) example_store.
Proof.
  split; [exact example_store_lookup|].
  destruct (most_popular_sort_commutes example_store 1 example_podcasts
              "Business" "tech" example_store_lookup) as [H _].
  exact H.
Defined.

(** ** Search *)

Lemma String_toLowerCase_app s t :
  String_toLowerCase (s +:+ t) = String_toLowerCase s +:+ String_toLowerCase t.
Proof.
  induction s as [|c s IH]; [done|].
  rewrite append_cons. simpl. by rewrite IH.
Qed.

Lemma substring_of_refl s : substring_of s s.
Proof. exists EmptyString, EmptyString. by rewrite append_nil, append_nil_r. Qed.

Lemma substring_of_trans s t u :
  substring_of s t → substring_of t u → substring_of s u.
Proof.
  intros (p1 & q1 & ->) (p2 & q2 & ->).
  exists (p2 +:+ p1), (q1 +:+ q2). by rewrite !append_assoc_string.
Qed.

Lemma substring_of_lower s t :
  substring_of s t →
  substring_of (String_toLowerCase s) (String_toLowerCase t).
Proof.
  intros (pre & post & ->).
  exists (String_toLowerCase pre), (String_toLowerCase post).
  by rewrite !String_toLowerCase_app.
Qed.

Lemma substring_of_empty s : substring_of s EmptyString → s = EmptyString.
Proof.
  intros (pre & post & E). destruct pre; [|done].
  rewrite append_nil in E. by destruct s.
Qed.

Lemma substring_of_trim q : substring_of (String_trim q) q.
Proof.
  destruct (String_trim_spec q) as [(ws1 & ws2 & E & _) _].
  by exists ws1, ws2.
Qed.

Lemma substring_of_join sep (xs : list string) g :
  g ∈ xs → substring_of g (Array_join sep xs).
Proof.
  induction xs as [|x xs IH]; [by intros ?%elem_of_nil|].
  intros [-> | Hin]%elem_of_cons.
  - destruct xs as [|y xs]; simpl; [apply substring_of_refl|].
    exists EmptyString, (sep +:+ Array_join sep (y :: xs)).
    by rewrite append_nil.
  - destruct xs as [|y xs]; [by apply elem_of_nil in Hin|].
    destruct (IH Hin) as (pre & post & E).
    exists (x +:+ sep +:+ pre), post.
    change (Array_join sep (x :: y :: xs))
      with (x +:+ sep +:+ Array_join sep (y :: xs)).
    by rewrite E, !append_assoc_string.
Qed.

Lemma List_filter_sublist_impl {A} (f g : A → bool) (l : list A) :
  (∀ x, f x = true → g x = true) →
  sublist (List.filter f l) (List.filter g l).
Proof.
  intros Hfg. induction l as [|x l IH]; simpl; [constructor|].
  destruct (f x) eqn:Ef.
  - rewrite (Hfg x Ef). by constructor.
  - destruct (g x); [by constructor | done].
Qed.

Lemma List_filter_sublist {A} (f : A → bool) (l : list A) :
  sublist (List.filter f l) l.
Proof.
  induction l as [|x l IH]; simpl; [constructor|].
  destruct (f x); by constructor.
Qed.

Lemma search_elements_narrow q q' (l : list Podcast.t) :
  substring_of (normalized_query q') (normalized_query q) →
  sublist (search_elements q l) (search_elements q' l).
Proof.
  unfold normalized_query, search_elements. intros Hsub.
  destruct (String_falsy (String_toLowerCase (String_trim q))) eqn:E.
  - apply String_falsy_spec in E. rewrite E in Hsub.
    apply substring_of_empty in Hsub. by rewrite Hsub.
  - destruct (String_falsy (String_toLowerCase (String_trim q'))).
    + apply List_filter_sublist.
    + apply List_filter_sublist_impl. intros p.
      rewrite !search_matches_spec.
      intros [H | H]; [left | right]; by eapply substring_of_trans.
Qed.

(** X14. Extending the query never adds results: when the normalised
    query of one search occurs inside the normalised query of another,
    the records the longer query finds are among those the shorter one
    finds, in the same order. *)
Theorem applySearch_narrows (h : store) (lst : ref) (l : list Podcast.t)
    (q q' : string) :
  h !! lst = Some l →
  substring_of (normalized_query q') (normalized_query q) →
  sublist (result_elements (applySearch lst q) h)
          (result_elements (applySearch lst q') h).
Proof.
  intros Hl Hsub.
  rewrite !(result_elements_run _ _ _ (applySearch_run _ _ _ _ Hl)).
  by apply search_elements_narrow.
Qed.

Lemma applySearch_narrows_witness :
  example_store !! 1%positive = Some example_podcasts ∧
  substring_of (normalized_query "Tech") (normalized_query " TECH talks ") ∧
  sublist (result_elements (applySearch 1 " TECH talks ") example_store)
          (result_elements (applySearch 1 "Tech") example_store).
Proof.
  assert (substring_of (normalized_query "Tech")
            (normalized_query " TECH talks ")) as Hsub
    by (by exists EmptyString, " talks").
  split; [exact example_store_lookup|]. split; [exact Hsub|].
  exact (applySearch_narrows example_store 1 example_podcasts
           " TECH talks " "Tech" example_store_lookup Hsub).
Defined.

(** X15. Typing a genre's name into the search box finds at least the
    records the dropdown would select for it: for every genre string
    other than "All Genres", the records [filterByGenre] returns are
    among those [applySearch] returns for the same string. *)
Theorem genre_search_covers_filter (h : store) (lst : ref)
    (l : list Podcast.t) (g : string) :
  h !! lst = Some l →
  g ≠ "All Genres" →
  sublist (result_elements (filterByGenre lst g) h)
          (result_elements (applySearch lst g) h).
Proof.
  intros Hl Hne.
  rewrite (result_elements_run _ _ _ (filterByGenre_run _ _ _ _ Hl)).
  rewrite (result_elements_run _ _ _ (applySearch_run _ _ _ _ Hl)).
  unfold genre_filter_elements, search_elements.
  destruct (String_falsy g) eqn:Eg; simpl.
  { apply String_falsy_spec in Eg as ->. done. }
  destruct (String.eqb g "All Genres") eqn:Ea.
  { by apply String.eqb_eq in Ea. }
  destruct (String_falsy (String_toLowerCase (String_trim g)));
    [apply List_filter_sublist|].
  apply List_filter_sublist_impl. intros p Hin.
  apply Array_includes_spec in Hin.
  apply search_matches_spec. right.
  eapply substring_of_trans.
  - apply substring_of_lower, substring_of_trim.
  - by apply substring_of_lower, substring_of_join.
Qed.

Lemma genre_search_covers_filter_witness :
  example_store !! 1%positive = Some example_podcasts ∧
  sublist (result_elements (filterByGenre 1 "True Crime") example_store)
          (result_elements (applySearch 1 "True Crime") example_store).
Proof.
  split; [exact example_store_lookup|].
  apply (genre_search_covers_filter example_store 1 example_podcasts
           "True Crime" example_store_lookup).
  discriminate.
Defined.

Lemma is_white_space_lower c :
  is_white_space (lower_char c) = is_white_space c.
Proof. destruct c as [[] [] [] [] [] [] [] []]; reflexivity. Qed.

Lemma lower_char_idem c : lower_char (lower_char c) = lower_char c.
Proof. destruct c as [[] [] [] [] [] [] [] []]; reflexivity. Qed.

Lemma String_toLowerCase_idem s :
  String_toLowerCase (String_toLowerCase s) = String_toLowerCase s.
Proof.
  induction s as [|c s IH]; simpl; [done|]. by rewrite lower_char_idem, IH.
Qed.

Lemma String_trimStart_lower s :
  String_trimStart (String_toLowerCase s) =
  String_toLowerCase (String_trimStart s).
Proof.
  induction s as [|c s IH]; simpl; [done|].
  rewrite is_white_space_lower. by destruct (is_white_space c).
Qed.

Lemma String_trimEnd_lower s :
  String_trimEnd (String_toLowerCase s) =
  String_toLowerCase (String_trimEnd s).
Proof.
  induction s as [|c s IH]; simpl; [done|].
  rewrite IH, is_white_space_lower.
  destruct (String_trimEnd s); simpl; [|done].
  by destruct (is_white_space c).
Qed.

Lemma normalized_query_lower q :
  normalized_query q = String_trim (String_toLowerCase q).
Proof.
  unfold normalized_query, String_trim.
  by rewrite String_trimStart_lower, String_trimEnd_lower.
Qed.

Lemma String_trimStart_all_white_space ws :
  all_white_space ws = true → String_trimStart ws = EmptyString.
Proof.
  induction ws as [|c ws IH]; simpl; [done|].
  intros [-> H]%andb_true_iff. by apply IH.
Qed.

Lemma String_trimEnd_all_white_space ws :
  all_white_space ws = true → String_trimEnd ws = EmptyString.
Proof.
  induction ws as [|c ws IH]; simpl; [done|].
  intros [Hc H]%andb_true_iff. by rewrite (IH H), Hc.
Qed.

Lemma String_trimStart_padding ws s :
  all_white_space ws = true →
  String_trimStart (ws +:+ s) = String_trimStart s.
Proof.
  induction ws as [|c ws IH]; [done|].
  intros [Hc H]%andb_true_iff. rewrite append_cons.
  change (String_trimStart (String c (ws +:+ s)))
    with (if is_white_space c then String_trimStart (ws +:+ s)
          else String c (ws +:+ s)).
  rewrite Hc. by apply IH.
Qed.

Lemma String_trimEnd_padding s ws :
  all_white_space ws = true →
  String_trimEnd (s +:+ ws) = String_trimEnd s.
Proof.
  intros Hws. induction s as [|c s IH].
  - rewrite append_nil. by apply String_trimEnd_all_white_space.
  - rewrite append_cons.
    change (String_trimEnd (String c (s +:+ ws)))
      with (match String_trimEnd (s +:+ ws) with
            | EmptyString => if is_white_space c then EmptyString
                             else String c EmptyString
            | r => String c r
            end).
    by rewrite IH.
Qed.

Lemma String_trim_padding ws1 s ws2 :
  all_white_space ws1 = true → all_white_space ws2 = true →
  String_trim (ws1 +:+ s +:+ ws2) = String_trim s.
Proof.
  intros H1 H2. unfold String_trim. rewrite String_trimStart_padding by done.
  clear ws1 H1. induction s as [|c s IH].
  - rewrite append_nil, String_trimStart_all_white_space by done. done.
  - rewrite append_cons.
    change (String_trimStart (String c (s +:+ ws2)))
      with (if is_white_space c then String_trimStart (s +:+ ws2)
            else String c (s +:+ ws2)).
    change (String_trimStart (String c s))
      with (if is_white_space c then String_trimStart s else String c s).
    destruct (is_white_space c); [done|].
    by rewrite <- append_cons, String_trimEnd_padding.
Qed.

(** X16. The search ignores the case of the query and white space
    around it: two queries whose lower-cased forms agree, one of them
    padded with white space on either side, give the same result. *)
Theorem applySearch_ignores_case_and_padding (h : store) (lst : ref)
    (l : list Podcast.t) (q q' ws1 ws2 : string) :
  h !! lst = Some l →
  String_toLowerCase q = String_toLowerCase q' →
  all_white_space ws1 = true →
  all_white_space ws2 = true →
  result_elements (applySearch lst (ws1 +:+ q +:+ ws2)) h =
  result_elements (applySearch lst q') h.
Proof.
  intros Hl Hq H1 H2.
  rewrite !(result_elements_run _ _ _ (applySearch_run _ _ _ _ Hl)).
  unfold search_elements.
  rewrite (String_trim_padding ws1 q ws2 H1 H2).
  fold (normalized_query q). fold (normalized_query q').
  by rewrite !normalized_query_lower, Hq.
Qed.

Lemma applySearch_ignores_case_and_padding_witness :
  example_store !! 1%positive = Some example_podcasts ∧
  result_elements (applySearch 1 ("  " +:+ "JunKie" +:+ " ")) example_store =
  result_elements (applySearch 1 "junkie") example_store.
Proof.
  split; [exact example_store_lookup|].
  apply (applySearch_ignores_case_and_padding example_store 1
           example_podcasts "JunKie" "junkie" "  " " " example_store_lookup);
    reflexivity.
Defined.

(** ** Malformed records *)

(** X17. A record built from a source object whose date string the host
    cannot parse and whose seasons are not an array still gets its card:
    the card shows the title, "0 seasons" and the text "Updated NaN week
    ago". *)
Theorem malformed_record_card (Date_parse : string → Number) (now : Z)
    (o : Raw.t) (s : string) :
  Raw.updated o = ArgString s →
  Date_parse s = NaN →
  (∀ xs, Raw.seasons o ≠ Raw.AnArray xs) →
  let c := render_card now (Podcast.new Date_parse o) in
  title_textContent c = Raw.title o ∧
  meta_textContent c = "0 seasons" ∧
  updated_textContent c = "Updated NaN week ago".
Proof.
  intros Hu Hp Hs. simpl. split_and!; [done | |].
  - unfold Podcast.getSeasonCount. simpl.
    destruct (Raw.seasons o) as [| | | |xs]; try done. by destruct (Hs xs).
  - apply getLastUpdatedHuman_invalid. unfold updated_time. simpl.
    rewrite Hu. simpl. by rewrite Hp.
Qed.

Lemma malformed_record_card_witness :
  Raw.updated malformed_record = ArgString "not a date" ∧
  iso_date_parse "not a date" = NaN ∧
  updated_textContent
    (render_card example_now (Podcast.new iso_date_parse malformed_record)) =
  "Updated NaN week ago".
Proof.
  split; [reflexivity|]. split; [reflexivity|].
  destruct (malformed_record_card iso_date_parse example_now malformed_record
              "not a date" eq_refl eq_refl) as (_ & _ & H).
  - intros xs. discriminate.
  - exact H.
Defined.




(** ** Start-up and repeated filtering *)

Lemma init_run now (h : store) dataset l :
  h !! dataset = Some l →
  ∃ h',
    init now dataset h =
    ({| genreFilter_innerHTML := populateGenres l;
        sortFilter_value := "Recently Updated";
        grid_children := renderPodcasts now (sort_elements by_updated l) |},
     h') ∧
    h' !! dataset = Some l.
Proof.
  intros Hl. unfold init, mbind, St_bind, Array_elements, Array_slice.
  rewrite (elements_at_Some _ _ _ Hl).
  destruct (Array_alloc_run l h) as (r1 & -> & F1).
  set (h1 := <[r1 := l]> h).
  assert (h1 !! r1 = Some l) as H1 by apply lookup_insert_eq.
  rewrite (sortList_run _ _ _ _ H1).
  destruct (Array_alloc_run
              (sort_elements (sort_comparator "Recently Updated") l) h1)
    as (r2 & -> & F2).
  eexists. split.
  - unfold elements_at, mret, St_ret. by rewrite lookup_insert_eq.
  - assert (h1 !! dataset = Some l) as D1.
    { subst h1. rewrite lookup_insert_ne; [done | congruence]. }
    rewrite lookup_insert_ne; [done | congruence].
Qed.

(** X19. The page [init] sets up agrees with its controls: the grid it
    renders is the one [updateUI] renders for the genre "All Genres", the
    sort mode "Recently Updated" that [init] selects, and an empty
    search box; the dropdown is built from the dataset, and the dataset
    array is left as it was. *)
Theorem init_matches_updateUI (now : Z) (h : store) (dataset : ref)
    (l : list Podcast.t) :
  h !! dataset = Some l →
  let start := init now dataset h in
  grid_children start.1 =
    (updateUI now dataset "All Genres" (sortFilter_value start.1)
       EmptyString h).1 ∧
  sortFilter_value start.1 = "Recently Updated" ∧
  genreFilter_innerHTML start.1 = populateGenres l ∧
  start.2 !! dataset = Some l.
Proof.
  intros Hl. cbv zeta.
  destruct (init_run now h dataset l Hl) as (h' & -> & Hl').
  cbn [fst snd grid_children sortFilter_value genreFilter_innerHTML].
  destruct (updateUI_grid now h dataset l "All Genres" "Recently Updated"
              EmptyString Hl) as (h2 & -> & _).
  done.
Qed.

Lemma init_matches_updateUI_witness :
  example_store !! 1%positive = Some example_podcasts ∧
  map card_opens (cards (grid_children (init example_now 1 example_store).1)) =
  map card_opens
    (cards (updateUI example_now 1 "All Genres" "Recently Updated"
              EmptyString example_store).1).
Proof.
  split; [exact example_store_lookup|].
  destruct (init_matches_updateUI example_now example_store 1
              example_podcasts example_store_lookup) as (H & Hv & _).
  rewrite H, Hv. reflexivity.
Defined.

(** X20. Filtering and searching are idempotent: applying
    [filterByGenre] with the same genre, or [applySearch] with the same
    query, to the array it returned gives the same records again. *)
Theorem filters_idempotent (h : store) (lst : ref) (l : list Podcast.t)
    (g q : string) :
  h !! lst = Some l →
  result_elements
    (then_stage (filterByGenre lst g) (λ out, filterByGenre out g)) h =
  result_elements (filterByGenre lst g) h ∧
  result_elements
    (then_stage (applySearch lst q) (λ out, applySearch out q)) h =
  result_elements (applySearch lst q) h.
Proof.
  intros Hl. split.
  - rewrite (result_elements_run _ _ _ (filterByGenre_run _ _ _ _ Hl)).
    rewrite (then_stage_elements _ _ h (genre_filter_elements g l)
               (genre_filter_elements g (genre_filter_elements g l)));
      [| by apply filterByGenre_run | intros; by apply filterByGenre_run].
    unfold genre_filter_elements.
    destruct (String_falsy g || String.eqb g "All Genres"); [done|].
    apply List_filter_idem.
  - rewrite (result_elements_run _ _ _ (applySearch_run _ _ _ _ Hl)).
    rewrite (then_stage_elements _ _ h (search_elements q l)
               (search_elements q (search_elements q l)));
      [| by apply applySearch_run | intros; by apply applySearch_run].
    unfold search_elements.
    destruct (String_falsy _); [done|].
    apply List_filter_idem.
Qed.

Lemma filters_idempotent_witness :
  example_store !! 1%positive = Some example_podcasts ∧
  result_elements
    (then_stage (filterByGenre 1 "Comedy") (λ out, filterByGenre out "Comedy"))
    example_store =
  result_elements (filterByGenre 1 "Comedy") example_store.
Proof.
  split; [exact example_store_lookup|].
  destruct (filters_idempotent example_store 1 example_podcasts
              "Comedy" "tech" example_store_lookup) as [H _].
  exact H.
Defined.

Lemma List_filter_none {A} (f : A → bool) (l : list A) :
  (∀ x, x ∈ l → f x = false) → List.filter f l = [].
Proof.
  induction l as [|x l IH]; intros H; simpl; [done|].
  rewrite (H x) by (by left). apply IH. intros y Hy. apply H. by right.
Qed.

(** X22. A genre that no record carries, other than the empty string and
    "All Genres", is not treated as "all": [updateUI] then renders the
    empty-state message and no card, whatever the search text and the
    sort mode. *)
Theorem unknown_genre_empty_state (now : Z) (h : store) (dataset : ref)
    (l : list Podcast.t) (genre sortBy q : string) :
  h !! dataset = Some l →
  genre ≠ EmptyString →
  genre ≠ "All Genres" →
  (∀ p, p ∈ l → genre ∉ Podcast.genres p) →
  (updateUI now dataset genre sortBy q h).1 =
  [EmptyState "empty-state" "No podcasts match your filters."].
Proof.
  intros Hl Hne Hall Hnone.
  destruct (updateUI_grid now h dataset l genre sortBy q Hl)
    as (h1 & -> & _). simpl.
  assert (genre_filter_elements genre l = []) as ->.
  { unfold genre_filter_elements.
    destruct (String_falsy genre) eqn:E1.
    { by apply String_falsy_spec in E1. }
    destruct (String.eqb genre "All Genres") eqn:E2.
    { by apply String.eqb_eq in E2. }
    simpl. apply List_filter_none. intros p Hp.
    destruct (Array_includes (Podcast.genres p) genre) eqn:E; [|done].
    apply Array_includes_spec in E. by destruct (Hnone p Hp). }
  assert (search_elements q [] = []) as ->.
  { unfold search_elements. by destruct (String_falsy _). }
  done.
Qed.

Lemma unknown_genre_empty_state_witness :
  example_store !! 1%positive = Some example_podcasts ∧
  (updateUI example_now 1 "Jazz" "Newest" EmptyString example_store).1 =
  [EmptyState "empty-state" "No podcasts match your filters."].
Proof.
  split; [exact example_store_lookup|].
  apply (unknown_genre_empty_state example_now example_store 1
           example_podcasts "Jazz" "Newest" EmptyString example_store_lookup);
    [discriminate | discriminate |].
  intros p Hp Hg.
  assert (Array_includes (Podcast.genres p) "Jazz" = true) as Hi
    by (by apply Array_includes_spec).
  repeat (apply elem_of_cons in Hp as [-> | Hp]; [discriminate Hi|]).
  by apply elem_of_nil in Hp.
Defined.
